(** * C-Synth: the synthesis core of [Sound Synthesizer/Core.h]

    A shallow embedding of namespace [synth]: the oscillator, the pitch
    mapper, the ADSR envelope, the six instruments and the step sequencer,
    followed by the properties established about them.

    Numbers.  [FTYPE] is [double] in the source.  It is embedded as the
    rationals extended with the three special values of IEEE-754 arithmetic:
    arithmetic on finite values is exact (no rounding, no overflow), while a
    division by zero and every operation on an infinity or a NaN follows the
    IEEE-754 rules, so that a degenerate computation is visible as the value
    it leaves in the signal.  Zero carries no sign: a zero divisor behaves as
    [+0.0], the only zero the constructors of the source store.  [int] is
    embedded as [Z] with 32-bit two's complement wrap-around.

    Where rounding or overflow decides what the code does, the envelope and
    the oscillator are embedded a second time, in module [IEEE], over the
    binary64 numbers themselves.  A property of the exact embedding that
    depends on magnitudes states the bounds within which the computation of
    the code neither overflows nor, for the sequencer, rounds. *)

From Stdlib Require Import ZArith QArith Qround Qpower Qabs Lia Lqa.
From Stdlib Require Import List String Ascii Bool.
From Stdlib Require Floats.
Import ListNotations.

Local Open Scope Z_scope.

(* ------------------------------------------------------------------ *)
(** ** Machine integers *)

Definition wrap32 (z : Z) : Z := (z + 2 ^ 31) mod 2 ^ 32 - 2 ^ 31.

Definition int_range (z : Z) : Prop := - 2 ^ 31 <= z < 2 ^ 31.

(* ------------------------------------------------------------------ *)
(** ** FTYPE: extended rationals *)

Inductive FTYPE : Type :=
| Fin (q : Q)
| PInf
| NInf
| NaN.

Declare Scope F_scope.
Delimit Scope F_scope with F.
Bind Scope F_scope with FTYPE.

Module F.

Definition of_int (z : Z) : FTYPE := Fin (inject_Z z).

Definition inf_of_sign (c : comparison) : FTYPE :=
  match c with Gt => PInf | Lt => NInf | Eq => NaN end.

Definition sign_mul (c1 c2 : comparison) : comparison :=
  match c1 with Eq => Eq | Gt => c2 | Lt => CompOpp c2 end.

(** Sign of a value that is not a NaN. *)
Definition sign (x : FTYPE) : comparison :=
  match x with
  | Fin q => (q ?= 0)%Q
  | PInf => Gt
  | NInf => Lt
  | NaN => Eq
  end.

Definition neg (x : FTYPE) : FTYPE :=
  match x with
  | Fin q => Fin (- q)
  | PInf => NInf
  | NInf => PInf
  | NaN => NaN
  end.

Definition add (x y : FTYPE) : FTYPE :=
  match x, y with
  | Fin a, Fin b => Fin (a + b)
  | NaN, _ | _, NaN => NaN
  | PInf, NInf | NInf, PInf => NaN
  | PInf, _ | _, PInf => PInf
  | NInf, _ | _, NInf => NInf
  end.

Definition sub (x y : FTYPE) : FTYPE :=
  match x, y with
  | Fin a, Fin b => Fin (a - b)
  | _, _ => add x (neg y)
  end.

Definition mul (x y : FTYPE) : FTYPE :=
  match x, y with
  | Fin a, Fin b => Fin (a * b)
  | NaN, _ | _, NaN => NaN
  | _, _ => inf_of_sign (sign_mul (sign x) (sign y))
  end.

Definition div (x y : FTYPE) : FTYPE :=
  match x, y with
  | Fin a, Fin b =>
      if Qeq_bool b 0 then inf_of_sign (a ?= 0)%Q else Fin (a / b)
  | NaN, _ | _, NaN => NaN
  | Fin _, _ => Fin 0
  | _, Fin b =>
      match (b ?= 0)%Q with
      | Lt => neg x
      | _ => x
      end
  | _, _ => NaN
  end.

(** Ordered comparison; [None] when an operand is a NaN. *)
Definition compare (x y : FTYPE) : option comparison :=
  match x, y with
  | NaN, _ | _, NaN => None
  | Fin a, Fin b => Some (a ?= b)%Q
  | PInf, PInf | NInf, NInf => Some Eq
  | _, PInf | NInf, _ => Some Lt
  | PInf, _ | _, NInf => Some Gt
  end.

Definition ltb (x y : FTYPE) : bool :=
  match compare x y with Some Lt => true | _ => false end.

Definition leb (x y : FTYPE) : bool :=
  match compare x y with Some Lt | Some Eq => true | _ => false end.

Definition gtb (x y : FTYPE) : bool := ltb y x.
Definition geb (x y : FTYPE) : bool := leb y x.

(** Truncation toward zero, as the quotient of [fmod] is taken. *)
Definition Qtrunc (q : Q) : Z := Z.quot (Qnum q) (Zpos (Qden q)).

(** [fmod] of <cmath>: [x - n*y] with [n] the quotient [x/y] truncated
    toward zero. *)
Definition Qfmod (a b : Q) : Q := a - inject_Z (Qtrunc (a / b)) * b.

Definition fmod (x y : FTYPE) : FTYPE :=
  match x, y with
  | Fin a, Fin b => if Qeq_bool b 0 then NaN else Fin (Qfmod a b)
  | NaN, _ | _, NaN => NaN
  | Fin a, _ => Fin a
  | _, _ => NaN
  end.

(** [pow] of <cmath> at an integer exponent. *)
Definition pow (x : FTYPE) (n : Z) : FTYPE :=
  if (n =? 0)%Z then Fin 1
  else
    match x with
    | Fin a =>
        if Qeq_bool a 0 && (n <? 0)%Z then PInf else Fin (a ^ n)
    | PInf => if (n <? 0)%Z then Fin 0 else PInf
    | NInf => if (n <? 0)%Z then Fin 0
              else if Z.odd n then NInf else PInf
    | NaN => NaN
    end.

End F.

Notation "x + y" := (F.add x y) : F_scope.
Notation "x - y" := (F.sub x y) : F_scope.
Notation "x * y" := (F.mul x y) : F_scope.
Notation "x / y" := (F.div x y) : F_scope.
Notation "x <? y" := (F.ltb x y) : F_scope.
Notation "x <=? y" := (F.leb x y) : F_scope.
Notation "x >? y" := (F.gtb x y) : F_scope.
Notation "x >=? y" := (F.geb x y) : F_scope.

(* ------------------------------------------------------------------ *)
(** ** The C library the core is compiled against

    [Core.h] uses [sin], [asin], [rand], [RAND_MAX] and the constant [PI]
    (declared in the absent header [Noise.h]).  They are taken as
    parameters; [rand] threads the hidden generator state explicitly. *)

Class Platform : Type := {
  PI : FTYPE;
  sin : FTYPE -> FTYPE;
  asin : FTYPE -> FTYPE;
  rng : Type;
  rand : rng -> Z * rng;
  RAND_MAX : Z
}.

(** A computation that may call [rand] and that may fail to return. *)
Definition M `{Platform} (A : Type) : Type := rng -> option (A * rng).

Definition ret `{Platform} {A} (a : A) : M A := fun g => Some (a, g).

Definition bind `{Platform} {A B} (m : M A) (k : A -> M B) : M B :=
  fun g => match m g with
           | Some (a, g') => k a g'
           | None => None
           end.

Definition diverge `{Platform} {A} : M A := fun _ => None.

Definition call_rand `{Platform} : M Z := fun g => Some (rand g).

Notation "x <- m ;; k" := (bind m (fun x => k))
  (at level 61, m at next level, right associativity).

(* ------------------------------------------------------------------ *)
(** ** Oscillator kinds *)

Inductive TYPE : Type :=
| OSC_SINE
| OSC_SQUARE
| OSC_TRIANGLE
| OSC_SAW_ANA
| OSC_SAW_DIG
| OSC_NOISE
| OSC_OTHER (code : Z).   (* any other value of the enum's underlying int *)

(* ------------------------------------------------------------------ *)
(** ** Scale to frequency conversion *)

Definition SCALE_DEFAULT : Z := 0.

Definition SEMITONE : Q := 1.0594630943592952645618252949463.

(** The [switch] has the single arm [case SCALE_DEFAULT: default:]. *)
Definition scale (nNoteID : Z) (nScaleID : Z) : FTYPE :=
  if (nScaleID =? SCALE_DEFAULT)%Z
  then (Fin 8 * F.pow (Fin SEMITONE) nNoteID)%F
  else (Fin 8 * F.pow (Fin SEMITONE) nNoteID)%F.

(** [scale] at its default tuning argument. *)
Definition scale1 (nNoteID : Z) : FTYPE := scale nNoteID SCALE_DEFAULT.

(* ------------------------------------------------------------------ *)
(** ** Envelopes *)

(** [struct envelope] is the interface with the one virtual [amplitude]. *)
Class envelope (E : Type) : Type := {
  amplitude : E -> FTYPE -> FTYPE -> FTYPE -> FTYPE
}.

Record envelope_adsr : Type := {
  dAttackTime : FTYPE;
  dDecayTime : FTYPE;
  dSustainAmplitude : FTYPE;
  dReleaseTime : FTYPE;
  dStartAmplitude : FTYPE
}.

(** [envelope_adsr::envelope_adsr()] *)
Definition envelope_adsr_new : envelope_adsr := {|
  dAttackTime := Fin 0.1;
  dDecayTime := Fin 0.1;
  dSustainAmplitude := Fin 1.0;
  dReleaseTime := Fin 0.2;
  dStartAmplitude := Fin 1.0
|}.

(** [envelope_adsr::amplitude] *)
Definition envelope_adsr_amplitude (this : envelope_adsr)
           (dTime dTimeOn dTimeOff : FTYPE) : FTYPE :=
  (let dAmplitude := Fin 0.0 in
   let dReleaseAmplitude := Fin 0.0 in
   let dAmplitude :=
     if dTimeOn >? dTimeOff then
       (* Note is on *)
       let dLifeTime := dTime - dTimeOn in
       let dAmplitude :=
         if dLifeTime <=? dAttackTime this
         then (dLifeTime / dAttackTime this) * dStartAmplitude this
         else dAmplitude in
       let dAmplitude :=
         if (dLifeTime >? dAttackTime this)
            && (dLifeTime <=? (dAttackTime this + dDecayTime this))
         then ((dLifeTime - dAttackTime this) / dDecayTime this)
              * (dSustainAmplitude this - dStartAmplitude this)
              + dStartAmplitude this
         else dAmplitude in
       let dAmplitude :=
         if dLifeTime >? (dAttackTime this + dDecayTime this)
         then dSustainAmplitude this
         else dAmplitude in
       dAmplitude
     else
       (* Note is off *)
       let dLifeTime := dTimeOff - dTimeOn in
       let dReleaseAmplitude :=
         if dLifeTime <=? dAttackTime this
         then (dLifeTime / dAttackTime this) * dStartAmplitude this
         else dReleaseAmplitude in
       let dReleaseAmplitude :=
         if (dLifeTime >? dAttackTime this)
            && (dLifeTime <=? (dAttackTime this + dDecayTime this))
         then ((dLifeTime - dAttackTime this) / dDecayTime this)
              * (dSustainAmplitude this - dStartAmplitude this)
              + dStartAmplitude this
         else dReleaseAmplitude in
       let dReleaseAmplitude :=
         if dLifeTime >? (dAttackTime this + dDecayTime this)
         then dSustainAmplitude this
         else dReleaseAmplitude in
       ((dTime - dTimeOff) / dReleaseTime this) * (Fin 0.0 - dReleaseAmplitude)
       + dReleaseAmplitude
   in
   (* Amplitude should not be negative *)
   if dAmplitude <=? Fin 0.01 then Fin 0.0 else dAmplitude)%F.

#[export] Instance envelope_adsr_is_envelope : envelope envelope_adsr := {
  amplitude := envelope_adsr_amplitude
}.

(** The free function [synth::env]. *)
Definition synth_env {E} `{envelope E}
           (dTime : FTYPE) (env : E) (dTimeOn dTimeOff : FTYPE) : FTYPE :=
  amplitude env dTime dTimeOn dTimeOff.

(* ------------------------------------------------------------------ *)
(** ** Instruments and notes *)

(** The dynamic type of an [instrument_base] object: which override of
    the virtual [sound] it carries. *)
Inductive instrument_class : Type :=
| class_bell
| class_bell8
| class_harmonica
| class_drumkick
| class_drumsnare
| class_drumhihat.

Record instrument_base : Type := {
  dVolume : FTYPE;
  env : envelope_adsr;
  fMaxLifeTime : FTYPE;
  name : string;
  vptr : instrument_class
}.

(** A basic note. [channel] is the [instrument_base*]; [None] is [nullptr]. *)
Record note : Type := {
  id : Z;          (* Position in scale *)
  on : FTYPE;      (* Time note was activated *)
  off : FTYPE;     (* Time note was deactivated *)
  active : bool;
  channel : option instrument_base
}.

(** [note::note()] *)
Definition note_new : note := {|
  id := 0;
  on := Fin 0.0;
  off := Fin 0.0;
  active := false;
  channel := None
|}.

Definition set_id (n : note) (v : Z) : note :=
  {| id := v; on := on n; off := off n; active := active n;
     channel := channel n |}.
Definition set_active (n : note) (v : bool) : note :=
  {| id := id n; on := on n; off := off n; active := v;
     channel := channel n |}.
Definition set_channel (n : note) (v : option instrument_base) : note :=
  {| id := id n; on := on n; off := off n; active := active n;
     channel := v |}.

Definition with_adsr (e : envelope_adsr) (a d s r : FTYPE) : envelope_adsr :=
  {| dAttackTime := a; dDecayTime := d; dSustainAmplitude := s;
     dReleaseTime := r; dStartAmplitude := dStartAmplitude e |}.

(** The six constructors: each starts from [envelope_adsr()] and assigns
    attack, decay, sustain and release, then the remaining members. *)
Definition instrument_bell : instrument_base := {|
  env := with_adsr envelope_adsr_new (Fin 0.01) (Fin 1.0) (Fin 0.0) (Fin 1.0);
  fMaxLifeTime := Fin 3.0;
  dVolume := Fin 1.0;
  name := "Bell";
  vptr := class_bell
|}.

Definition instrument_bell8 : instrument_base := {|
  env := with_adsr envelope_adsr_new (Fin 0.01) (Fin 0.5) (Fin 0.8) (Fin 1.0);
  fMaxLifeTime := Fin 3.0;
  dVolume := Fin 1.0;
  name := "8-Bit Bell";
  vptr := class_bell8
|}.

Definition instrument_harmonica : instrument_base := {|
  env := with_adsr envelope_adsr_new (Fin 0.00) (Fin 1.0) (Fin 0.95) (Fin 0.1);
  fMaxLifeTime := Fin (-1.0);
  name := "Harmonica";
  dVolume := Fin 0.3;
  vptr := class_harmonica
|}.

Definition instrument_drumkick : instrument_base := {|
  env := with_adsr envelope_adsr_new (Fin 0.01) (Fin 0.15) (Fin 0.0) (Fin 0.0);
  fMaxLifeTime := Fin 1.5;
  name := "Drum Kick";
  dVolume := Fin 1.0;
  vptr := class_drumkick
|}.

Definition instrument_drumsnare : instrument_base := {|
  env := with_adsr envelope_adsr_new (Fin 0.0) (Fin 0.2) (Fin 0.0) (Fin 0.0);
  fMaxLifeTime := Fin 1.0;
  name := "Drum Snare";
  dVolume := Fin 1.0;
  vptr := class_drumsnare
|}.

Definition instrument_drumhihat : instrument_base := {|
  env := with_adsr envelope_adsr_new (Fin 0.01) (Fin 0.05) (Fin 0.0) (Fin 0.0);
  fMaxLifeTime := Fin 1.0;
  name := "Drum HiHat";
  dVolume := Fin 0.5;
  vptr := class_drumhihat
|}.

(* ------------------------------------------------------------------ *)
(** ** Code that needs the C library *)

Section Core.
Context `{P : Platform}.

Local Open Scope F_scope.

(** Converts frequency (Hz) to angular velocity. *)
Definition w (dHertz : FTYPE) : FTYPE := dHertz * Fin 2.0 * PI.

(** [for (FTYPE n = 1.0; n < dCustom; n++) dOutput += sin(n*dFreq) / n;] *)
Fixpoint saw_ana_loop (fuel : nat) (dFreq dCustom n dOutput : FTYPE)
  : option FTYPE :=
  if n <? dCustom then
    match fuel with
    | O => None
    | S fuel' =>
        saw_ana_loop fuel' dFreq dCustom (n + Fin 1)
                     (dOutput + sin (n * dFreq) / n)
    end
  else Some dOutput.

(** A number of iterations by which the loop above has stopped, if it
    stops at all (it does not when [dCustom] is [+inf]). *)
Definition saw_ana_fuel (dCustom : FTYPE) : nat :=
  match dCustom with
  | Fin c => Z.to_nat (Qceiling c)
  | _ => O
  end.

Definition osc (dTime dHertz : FTYPE) (t : TYPE)
           (dLFOHertz dLFOAmplitude dCustom : FTYPE) : M FTYPE :=
  let dFreq := w dHertz * dTime
               + dLFOAmplitude * dHertz * sin (w dLFOHertz * dTime) in
  match t with
  | OSC_SINE => (* Sine wave between -1 and +1 *)
      ret (sin dFreq)
  | OSC_SQUARE => (* Square wave between -1 and +1 *)
      ret (if sin dFreq >? Fin 0 then Fin 1.0 else Fin (-1.0))
  | OSC_TRIANGLE => (* Triangle wave between -1 and +1 *)
      ret (asin (sin dFreq) * (Fin 2.0 / PI))
  | OSC_SAW_ANA => (* Saw wave (analogue / warm / slow) *)
      match saw_ana_loop (saw_ana_fuel dCustom) dFreq dCustom
                         (Fin 1.0) (Fin 0.0) with
      | Some dOutput => ret (dOutput * (Fin 2.0 / PI))
      | None => diverge
      end
  | OSC_SAW_DIG =>
      ret ((Fin 2.0 / PI)
           * (dHertz * PI * F.fmod dTime (Fin 1.0 / dHertz)
              - (PI / Fin 2.0)))
  | OSC_NOISE =>
      r <- call_rand ;;
      ret (Fin 2.0 * (F.of_int r / F.of_int RAND_MAX) - Fin 1.0)
  | OSC_OTHER _ => ret (Fin 0.0)
  end.

(** [osc] with its trailing default arguments. *)
Definition osc2 (dTime dHertz : FTYPE) : M FTYPE :=
  osc dTime dHertz OSC_SINE (Fin 0.0) (Fin 0.0) (Fin 50.0).
Definition osc3 (dTime dHertz : FTYPE) (t : TYPE) : M FTYPE :=
  osc dTime dHertz t (Fin 0.0) (Fin 0.0) (Fin 50.0).
Definition osc5 (dTime dHertz : FTYPE) (t : TYPE)
           (dLFOHertz dLFOAmplitude : FTYPE) : M FTYPE :=
  osc dTime dHertz t dLFOHertz dLFOAmplitude (Fin 50.0).

(** *** The six overrides of [sound]
    [bNoteFinished] is the [bool&] out-parameter: its incoming value is
    an argument, its outgoing value the second component of the result. *)

Definition instrument_bell_sound (this : instrument_base)
           (dTime : FTYPE) (n : note) (bNoteFinished : bool)
  : M (FTYPE * bool) :=
  let dAmplitude := synth_env dTime (env this) (on n) (off n) in
  let bNoteFinished :=
    if dAmplitude <=? Fin 0.0 then true else bNoteFinished in
  o1 <- osc5 (dTime - on n) (scale1 (wrap32 (id n + 12))) OSC_SINE
             (Fin 5.0) (Fin 0.001) ;;
  o2 <- osc2 (dTime - on n) (scale1 (wrap32 (id n + 24))) ;;
  o3 <- osc2 (dTime - on n) (scale1 (wrap32 (id n + 36))) ;;
  let dSound := Fin 1.00 * o1 + Fin 0.50 * o2 + Fin 0.25 * o3 in
  ret (dAmplitude * dSound * dVolume this, bNoteFinished).

Definition instrument_bell8_sound (this : instrument_base)
           (dTime : FTYPE) (n : note) (bNoteFinished : bool)
  : M (FTYPE * bool) :=
  let dAmplitude := synth_env dTime (env this) (on n) (off n) in
  let bNoteFinished :=
    if dAmplitude <=? Fin 0.0 then true else bNoteFinished in
  o1 <- osc5 (dTime - on n) (scale1 (id n)) OSC_SQUARE
             (Fin 5.0) (Fin 0.001) ;;
  o2 <- osc2 (dTime - on n) (scale1 (wrap32 (id n + 12))) ;;
  o3 <- osc2 (dTime - on n) (scale1 (wrap32 (id n + 24))) ;;
  let dSound := Fin 1.00 * o1 + Fin 0.50 * o2 + Fin 0.25 * o3 in
  ret (dAmplitude * dSound * dVolume this, bNoteFinished).

Definition instrument_harmonica_sound (this : instrument_base)
           (dTime : FTYPE) (n : note) (bNoteFinished : bool)
  : M (FTYPE * bool) :=
  let dAmplitude := synth_env dTime (env this) (on n) (off n) in
  let bNoteFinished :=
    if dAmplitude <=? Fin 0.0 then true else bNoteFinished in
  o1 <- osc (on n - dTime) (scale1 (wrap32 (id n - 12))) OSC_SAW_ANA
            (Fin 5.0) (Fin 0.001) (F.of_int 100) ;;
  o2 <- osc5 (dTime - on n) (scale1 (id n)) OSC_SQUARE
             (Fin 5.0) (Fin 0.001) ;;
  o3 <- osc3 (dTime - on n) (scale1 (wrap32 (id n + 12))) OSC_SQUARE ;;
  o4 <- osc3 (dTime - on n) (scale1 (wrap32 (id n + 24))) OSC_NOISE ;;
  let dSound :=
    Fin 1.0 * o1 + Fin 1.00 * o2 + Fin 0.50 * o3 + Fin 0.05 * o4 in
  ret (dAmplitude * dSound * dVolume this, bNoteFinished).

Definition instrument_drumkick_sound (this : instrument_base)
           (dTime : FTYPE) (n : note) (bNoteFinished : bool)
  : M (FTYPE * bool) :=
  let dAmplitude := synth_env dTime (env this) (on n) (off n) in
  let bNoteFinished :=
    if (fMaxLifeTime this >? Fin 0.0)
       && (dTime - on n >=? fMaxLifeTime this)
    then true else bNoteFinished in
  o1 <- osc5 (dTime - on n) (scale1 (wrap32 (id n - 36))) OSC_SINE
             (Fin 1.0) (Fin 1.0) ;;
  o2 <- osc3 (dTime - on n) (F.of_int 0) OSC_NOISE ;;
  let dSound := Fin 0.99 * o1 + Fin 0.01 * o2 in
  ret (dAmplitude * dSound * dVolume this, bNoteFinished).

Definition instrument_drumsnare_sound (this : instrument_base)
           (dTime : FTYPE) (n : note) (bNoteFinished : bool)
  : M (FTYPE * bool) :=
  let dAmplitude := synth_env dTime (env this) (on n) (off n) in
  let bNoteFinished :=
    if (fMaxLifeTime this >? Fin 0.0)
       && (dTime - on n >=? fMaxLifeTime this)
    then true else bNoteFinished in
  o1 <- osc5 (dTime - on n) (scale1 (wrap32 (id n - 24))) OSC_SINE
             (Fin 0.5) (Fin 1.0) ;;
  o2 <- osc3 (dTime - on n) (F.of_int 0) OSC_NOISE ;;
  let dSound := Fin 0.5 * o1 + Fin 0.5 * o2 in
  ret (dAmplitude * dSound * dVolume this, bNoteFinished).

Definition instrument_drumhihat_sound (this : instrument_base)
           (dTime : FTYPE) (n : note) (bNoteFinished : bool)
  : M (FTYPE * bool) :=
  let dAmplitude := synth_env dTime (env this) (on n) (off n) in
  let bNoteFinished :=
    if (fMaxLifeTime this >? Fin 0.0)
       && (dTime - on n >=? fMaxLifeTime this)
    then true else bNoteFinished in
  o1 <- osc5 (dTime - on n) (scale1 (wrap32 (id n - 12))) OSC_SQUARE
             (Fin 1.5) (F.of_int 1) ;;
  o2 <- osc3 (dTime - on n) (F.of_int 0) OSC_NOISE ;;
  let dSound := Fin 0.1 * o1 + Fin 0.9 * o2 in
  ret (dAmplitude * dSound * dVolume this, bNoteFinished).

(** Virtual dispatch of [instrument_base::sound]. *)
Definition sound (this : instrument_base)
  : FTYPE -> note -> bool -> M (FTYPE * bool) :=
  match vptr this with
  | class_bell => instrument_bell_sound this
  | class_bell8 => instrument_bell8_sound this
  | class_harmonica => instrument_harmonica_sound this
  | class_drumkick => instrument_drumkick_sound this
  | class_drumsnare => instrument_drumsnare_sound this
  | class_drumhihat => instrument_drumhihat_sound this
  end.

End Core.

(* ------------------------------------------------------------------ *)
(** ** Sequencer *)

(** What a call leaves behind: a result, a read past the end of a
    container (undefined behaviour in the source), or a loop that has not
    finished within the given number of iterations. *)
Inductive outcome (A : Type) : Type :=
| Returns (a : A)
| OutOfBounds
| OutOfFuel.

Arguments Returns {A} a.
Arguments OutOfBounds {A}.
Arguments OutOfFuel {A}.

(** [std::wstring::operator[]]: the [int] index is converted to the
    unsigned [size_type]; position [size()] holds the terminating null
    character; anything beyond is out of bounds. *)
Definition wstring_at (s : string) (pos : Z) : option ascii :=
  if pos <? 0 then None
  else
    match String.get (Z.to_nat pos) s with
    | Some ch => Some ch
    | None =>
        if pos =? Z.of_nat (String.length s) then Some Ascii.zero else None
    end.

(** [std::vector::operator[]] *)
Definition vector_at {A} (v : list A) (pos : Z) : option A :=
  if pos <? 0 then None else nth_error v (Z.to_nat pos).

(** [struct sequencer::channel] *)
Record sequencer_channel : Type := {
  instrument : option instrument_base;
  sBeat : string
}.

Record sequencer : Type := {
  nBeats : Z;
  nSubBeats : Z;
  fTempo : FTYPE;
  fBeatTime : FTYPE;
  fAccumulate : FTYPE;
  nCurrentBeat : Z;
  nTotalBeats : Z;
  vecChannel : list sequencer_channel;
  vecNotes : list note
}.

(** [sequencer::sequencer(float tempo, int beats, int subbeats)] *)
Definition sequencer_new (tempo : FTYPE) (beats subbeats : Z) : sequencer := {|
  nBeats := beats;
  nSubBeats := subbeats;
  fTempo := tempo;
  fBeatTime := ((Fin 60.0 / tempo) / F.of_int subbeats)%F;
  nCurrentBeat := 0;
  nTotalBeats := wrap32 (subbeats * beats);
  fAccumulate := F.of_int 0;
  vecChannel := [];
  vecNotes := []
|}.

(** The constructor at its default arguments. *)
Definition sequencer_default : sequencer := sequencer_new (Fin 120.0) 4 4.

(** The body of [for (auto v : vecChannel)], at the channels still to
    visit; [c] is the running index and [notes] the list [vecNotes]. *)
Fixpoint Update_channels (vecChannel : list sequencer_channel)
         (nCurrentBeat : Z) (rest : list sequencer_channel) (c : Z)
         (notes : list note) : outcome (list note) :=
  match rest with
  | [] => Returns notes
  | v :: rest' =>
      match wstring_at (sBeat v) nCurrentBeat with
      | None => OutOfBounds
      | Some ch =>
          if Ascii.eqb ch "X" then
            match vector_at vecChannel c with
            | None => OutOfBounds
            | Some vc =>
                let n := note_new in
                let n := set_channel n (instrument vc) in
                let n := set_active n true in
                let n := set_id n 64 in
                Update_channels vecChannel nCurrentBeat rest'
                                (wrap32 (c + 1)) (notes ++ [n])
            end
          else
            Update_channels vecChannel nCurrentBeat rest'
                            (wrap32 (c + 1)) notes
      end
  end.

Definition set_step (this : sequencer) (acc : FTYPE) (cur : Z)
           (notes : list note) : sequencer :=
  {| nBeats := nBeats this; nSubBeats := nSubBeats this;
     fTempo := fTempo this; fBeatTime := fBeatTime this;
     fAccumulate := acc; nCurrentBeat := cur;
     nTotalBeats := nTotalBeats this;
     vecChannel := vecChannel this; vecNotes := notes |}.

(** [while (fAccumulate >= fBeatTime) { ... }]; one unit of fuel per
    iteration. *)
Fixpoint Update_loop (fuel : nat) (this : sequencer) : outcome sequencer :=
  if (fAccumulate this >=? fBeatTime this)%F then
    match fuel with
    | O => OutOfFuel
    | S fuel' =>
        let acc := (fAccumulate this - fBeatTime this)%F in
        let cur := wrap32 (nCurrentBeat this + 1) in
        let cur := if cur >=? nTotalBeats this then 0 else cur in
        match Update_channels (vecChannel this) cur (vecChannel this) 0
                              (vecNotes this) with
        | Returns notes => Update_loop fuel' (set_step this acc cur notes)
        | OutOfBounds => OutOfBounds
        | OutOfFuel => OutOfFuel
        end
    end
  else Returns this.

(** [int sequencer::Update(FTYPE fElapsedTime)] *)
Definition Update (fuel : nat) (this : sequencer) (fElapsedTime : FTYPE)
  : outcome (Z * sequencer) :=
  let this :=
    set_step this (fAccumulate this + fElapsedTime)%F (nCurrentBeat this) [] in
  match Update_loop fuel this with
  | Returns this' =>
      Returns (wrap32 (Z.of_nat (List.length (vecNotes this'))), this')
  | OutOfBounds => OutOfBounds
  | OutOfFuel => OutOfFuel
  end.

(** [void sequencer::AddInstrument(instrument_base *inst)]: the pattern
    of the new channel is the default-constructed, empty string. *)
Definition AddInstrument (this : sequencer) (inst : option instrument_base)
  : sequencer :=
  let c := {| instrument := inst; sBeat := EmptyString |} in
  {| nBeats := nBeats this; nSubBeats := nSubBeats this;
     fTempo := fTempo this; fBeatTime := fBeatTime this;
     fAccumulate := fAccumulate this; nCurrentBeat := nCurrentBeat this;
     nTotalBeats := nTotalBeats this;
     vecChannel := vecChannel this ++ [c]; vecNotes := vecNotes this |}.

(** The caller's assignment [seq.vecChannel.at(i).sBeat = pattern], which
    is how a pattern reaches a channel; [at] throws when [i] is out of
    range and the sequencer is then left as it was. *)
Definition set_sBeat (this : sequencer) (i : nat) (pattern : string)
  : sequencer :=
  {| nBeats := nBeats this; nSubBeats := nSubBeats this;
     fTempo := fTempo this; fBeatTime := fBeatTime this;
     fAccumulate := fAccumulate this; nCurrentBeat := nCurrentBeat this;
     nTotalBeats := nTotalBeats this;
     vecChannel :=
       match nth_error (vecChannel this) i with
       | Some ch =>
           firstn i (vecChannel this)
           ++ {| instrument := instrument ch; sBeat := pattern |}
           :: skipn (S i) (vecChannel this)
       | None => vecChannel this
       end;
     vecNotes := vecNotes this |}.

(** A driver calling [Update] once per element of [dts]; the result lists
    the returned counts in call order. *)
Fixpoint Updates (fuel : nat) (this : sequencer) (dts : list FTYPE)
  : outcome (list Z * sequencer) :=
  match dts with
  | [] => Returns ([], this)
  | dt :: dts' =>
      match Update fuel this dt with
      | Returns (k, this') =>
          match Updates fuel this' dts' with
          | Returns (ks, this'') => Returns (k :: ks, this'')
          | OutOfBounds => OutOfBounds
          | OutOfFuel => OutOfFuel
          end
      | OutOfBounds => OutOfBounds
      | OutOfFuel => OutOfFuel
      end
  end.

(* ------------------------------------------------------------------ *)
(** ** A concrete platform for running the model

    [rand] is the portable generator given as an example in the C
    standard; [sin] and [asin] are short Taylor polynomials. *)

Definition poly_sin (x : FTYPE) : FTYPE :=
  match x with
  | Fin q => Fin (q - q * q * q / 6 + q * q * q * q * q / 120)
  | _ => NaN
  end.

Definition poly_asin (x : FTYPE) : FTYPE :=
  match x with
  | Fin q => Fin (q + q * q * q / 6)
  | _ => NaN
  end.

Definition ansi_rand (next : Z) : Z * Z :=
  let next := (next * 1103515245 + 12345) mod 2 ^ 32 in
  ((next / 65536) mod 32768, next).

Definition test_platform : Platform := {|
  PI := Fin 3.14159265358979323846;
  sin := poly_sin;
  asin := poly_asin;
  rng := Z;
  rand := ansi_rand;
  RAND_MAX := 32767
|}.

(** The sequencer of the scenario: default tempo and grid, one channel
    playing the Drum Kick on the pattern ["X..............."]. *)
Definition scenario_sequencer : sequencer :=
  set_sBeat (AddInstrument (sequencer_new (Fin 120.0) 4 4)
                           (Some instrument_drumkick))
            0 "X...............".

Local Open Scope Q_scope.

(* ------------------------------------------------------------------ *)
(** ** Vocabulary of the properties *)

(** An envelope with finite parameters. *)
Definition adsr (a d s r st : Q) : envelope_adsr :=
  {| dAttackTime := Fin a; dDecayTime := Fin d; dSustainAmplitude := Fin s;
     dReleaseTime := Fin r; dStartAmplitude := Fin st |}.

(** The level the attack/decay/sustain cascade reaches at lifetime [l]. *)
Definition adsr_level (a d s st l : Q) : Q :=
  if Qle_bool l a then l / a * st
  else if Qle_bool l (a + d) then (l - a) / d * (s - st) + st
  else s.

(** The amplitude before the guard. *)
Definition adsr_raw (a d s r st t on off : Q) : Q :=
  if Qle_bool on off then
    (t - off) / r * (0.0 - adsr_level a d s st (off - on))
    + adsr_level a d s st (off - on)
  else adsr_level a d s st (t - on).

(** The guard. *)
Definition snap (q : Q) : Q := if Qle_bool q 0.01 then 0.0 else q.

(** The two termination policies, by dynamic type. *)
Definition envelope_driven (this : instrument_base) : Prop :=
  vptr this = class_bell \/ vptr this = class_bell8
  \/ vptr this = class_harmonica.

Definition timeout_driven (this : instrument_base) : Prop :=
  vptr this = class_drumkick \/ vptr this = class_drumsnare
  \/ vptr this = class_drumhihat.

(** A sequencer whose step counter is where the constructor and [Update]
    leave it and whose patterns all cover the grid. *)
Definition playable (this : sequencer) : Prop :=
  (int_range (nTotalBeats this)
   /\ 0 <= nCurrentBeat this
   /\ (nCurrentBeat this < nTotalBeats this \/ nCurrentBeat this = 0)
   /\ Z.of_nat (List.length (vecChannel this)) < 2 ^ 31
   /\ Forall (fun v => nTotalBeats this
                       <= Z.of_nat (String.length (sBeat v)))
             (vecChannel this))%Z.

(** The note the scenario sequencer emits. *)
Definition scenario_note : note :=
  set_id (set_active (set_channel note_new (Some instrument_drumkick)) true)
         64.

(** The scenario sequencer after the first [Update(0.125)], and after
    sixteen of them. *)
Definition scenario_after_step : sequencer :=
  match Update 1 scenario_sequencer (Fin 0.125) with
  | Returns (_, this') => this'
  | _ => scenario_sequencer
  end.

Definition scenario_after_16 : sequencer :=
  match Updates 1 scenario_sequencer (repeat (Fin 0.125) 16) with
  | Returns (_, this') => this'
  | _ => scenario_sequencer
  end.

(** The scenario sequencer after one whole bar is played in one call. *)
Definition scenario_after_bar : sequencer :=
  match Update 16 scenario_sequencer (Fin 2.0) with
  | Returns (_, this') => this'
  | _ => scenario_sequencer
  end.

(* ------------------------------------------------------------------ *)
(** ** Vocabulary of the further properties *)

(** The generator state an oscillator call leaves behind. *)
Definition draws `{Platform} (t : TYPE) (g : rng) : rng :=
  match t with OSC_NOISE => snd (rand g) | _ => g end.

(** A [sin] that maps every finite argument into [-1, 1]. *)
Definition sin_bounded `{Platform} : Prop :=
  forall q, exists y, sin (Fin q) = Fin y /\ -1 <= y <= 1.

(** The step [Update] moves to from step [cur]. *)
Definition next_beat (total cur : Z) : Z :=
  let c := wrap32 (cur + 1) in if (c >=? total)%Z then 0%Z else c.

(** Whether the pattern of a channel has the trigger marker at [cur]. *)
Definition triggers (cur : Z) (v : sequencer_channel) : bool :=
  match wstring_at (sBeat v) cur with
  | Some ch => Ascii.eqb ch "X"
  | None => false
  end.

(** The note [Update] builds for a triggering channel. *)
Definition note_for (v : sequencer_channel) : note :=
  set_id (set_active (set_channel note_new (instrument v)) true) 64.

(** The notes of one step: one per triggering channel, in channel order. *)
Definition step_notes (chans : list sequencer_channel) (cur : Z)
  : list note :=
  map note_for (filter (triggers cur) chans).

(** The step reached, and the notes emitted, after [k] steps. *)
Fixpoint run_beat (total cur : Z) (k : nat) : Z :=
  match k with
  | O => cur
  | S k' => run_beat total (next_beat total cur) k'
  end.

Fixpoint run_notes (chans : list sequencer_channel) (total cur : Z)
         (k : nat) : list note :=
  match k with
  | O => []
  | S k' =>
      step_notes chans (next_beat total cur)
      ++ run_notes chans total (next_beat total cur) k'
  end.

(** A second platform for running the model, whose [sin] is clamped to
    [-1, 1]. *)
Definition clamp_unit (q : Q) : Q :=
  if Qle_bool q (-1) then -1 else if Qle_bool 1 q then 1 else q.

Definition clamped_sin (x : FTYPE) : FTYPE :=
  match poly_sin x with
  | Fin q => Fin (clamp_unit q)
  | other => other
  end.

Definition clamped_platform : Platform := {|
  PI := Fin 3.14159265358979323846;
  sin := clamped_sin;
  asin := poly_asin;
  rng := Z;
  rand := ansi_rand;
  RAND_MAX := 32767
|}.

(** A Drum Kick whose public [fMaxLifeTime] was set to -1, the value the
    Harmonica uses for an unbounded lifetime. *)
Definition drumkick_unbounded : instrument_base := {|
  env := env instrument_drumkick;
  fMaxLifeTime := Fin (-1.0);
  name := name instrument_drumkick;
  dVolume := dVolume instrument_drumkick;
  vptr := class_drumkick
|}.

(** The scenario sequencer after two calls of [Update(0.125)]. *)
Definition scenario_after_2 : sequencer :=
  match Update 1 scenario_after_step (Fin 0.125) with
  | Returns (_, this') => this'
  | _ => scenario_sequencer
  end.

(** What [Update] writes into a note it appends while it plays [k] steps
    from step [cur]: the fixed fields, and the instrument of a channel
    whose pattern has the marker at one of the steps played. *)
Definition triggered_at (vecChannel : list sequencer_channel)
           (total cur : Z) (k : nat) (n : note) : Prop :=
  id n = 64%Z /\ active n = true /\ on n = Fin 0.0 /\ off n = Fin 0.0
  /\ exists v (j : nat),
       (j < k)%nat
       /\ In v vecChannel
       /\ wstring_at (sBeat v) (run_beat total cur (S j)) = Some "X"%char
       /\ channel n = instrument v.

(** A magnitude far below the overflow threshold of [double] (about
    1.8e308): quotients and differences of times bounded by it are finite
    in the code. *)
Definition far : Q := 10 ^ 300.

(** Values on the binary grid of step 2^-20, below 2^30 in magnitude:
    [double] adds, subtracts and compares a few of them without rounding,
    so on them the exact arithmetic is the arithmetic of the code. *)
Definition on_grid (q : Q) : Prop :=
  exists z : Z, q == z # 1048576 /\ (Z.abs z < 2 ^ 50)%Z.

(** The scenario sequencer with a second channel, a Drum Snare on the
    off-beats. *)
Definition scenario_two_channels : sequencer :=
  set_sBeat (AddInstrument scenario_sequencer (Some instrument_drumsnare))
            1 "..X...X...X...X.".

Definition scenario_two_after_4 : sequencer :=
  match Update 4 scenario_two_channels (Fin 0.5) with
  | Returns (_, this') => this'
  | _ => scenario_two_channels
  end.

(* ------------------------------------------------------------------ *)
(** ** The envelope and the oscillator over binary64

    The same two functions, statement by statement, over the binary64
    numbers of the machine: every operation rounds to nearest, overflows
    and propagates NaN as [double] does, each on its own (no fused
    multiply-add).  [fmod] joins the functions taken from the C library. *)

Module IEEE.

Import Floats.
#[local] Set Warnings "-inexact-float".
Local Open Scope float_scope.

(** [(FTYPE)] applied to an [int]. *)
Definition of_int (z : Z) : float :=
  SF2Prim (binary_normalize prec emax z 0 false).

Record envelope_adsr : Type := {
  dAttackTime : float;
  dDecayTime : float;
  dSustainAmplitude : float;
  dReleaseTime : float;
  dStartAmplitude : float
}.

Definition envelope_adsr_new : envelope_adsr := {|
  dAttackTime := 0.1;
  dDecayTime := 0.1;
  dSustainAmplitude := 1.0;
  dReleaseTime := 0.2;
  dStartAmplitude := 1.0
|}.

Definition amplitude (this : envelope_adsr)
           (dTime dTimeOn dTimeOff : float) : float :=
  let dAmplitude := 0.0 in
  let dReleaseAmplitude := 0.0 in
  let dAmplitude :=
    if dTimeOff <? dTimeOn then (* Note is on *)
      let dLifeTime := dTime - dTimeOn in
      let dAmplitude :=
        if dLifeTime <=? dAttackTime this
        then (dLifeTime / dAttackTime this) * dStartAmplitude this
        else dAmplitude in
      let dAmplitude :=
        if (dAttackTime this <? dLifeTime)
           && (dLifeTime <=? (dAttackTime this + dDecayTime this))
        then ((dLifeTime - dAttackTime this) / dDecayTime this)
             * (dSustainAmplitude this - dStartAmplitude this)
             + dStartAmplitude this
        else dAmplitude in
      let dAmplitude :=
        if (dAttackTime this + dDecayTime this) <? dLifeTime
        then dSustainAmplitude this
        else dAmplitude in
      dAmplitude
    else (* Note is off *)
      let dLifeTime := dTimeOff - dTimeOn in
      let dReleaseAmplitude :=
        if dLifeTime <=? dAttackTime this
        then (dLifeTime / dAttackTime this) * dStartAmplitude this
        else dReleaseAmplitude in
      let dReleaseAmplitude :=
        if (dAttackTime this <? dLifeTime)
           && (dLifeTime <=? (dAttackTime this + dDecayTime this))
        then ((dLifeTime - dAttackTime this) / dDecayTime this)
             * (dSustainAmplitude this - dStartAmplitude this)
             + dStartAmplitude this
        else dReleaseAmplitude in
      let dReleaseAmplitude :=
        if (dAttackTime this + dDecayTime this) <? dLifeTime
        then dSustainAmplitude this
        else dReleaseAmplitude in
      ((dTime - dTimeOff) / dReleaseTime this) * (0.0 - dReleaseAmplitude)
      + dReleaseAmplitude
  in
  (* Amplitude should not be negative *)
  if dAmplitude <=? 0.01 then 0.0 else dAmplitude.

Class Libm : Type := {
  PI : float;
  sin : float -> float;
  asin : float -> float;
  fmod : float -> float -> float;
  rng : Type;
  rand : rng -> Z * rng;
  RAND_MAX : Z
}.

Section Osc.
Context `{L : Libm}.

Definition w (dHertz : float) : float := dHertz * 2.0 * PI.

Fixpoint saw_ana_loop (fuel : nat) (dFreq dCustom n dOutput : float)
  : option float :=
  if n <? dCustom then
    match fuel with
    | O => None
    | S fuel' =>
        saw_ana_loop fuel' dFreq dCustom (n + 1.0)
                     (dOutput + sin (n * dFreq) / n)
    end
  else Some dOutput.

Definition osc (fuel : nat) (dTime dHertz : float) (t : TYPE)
           (dLFOHertz dLFOAmplitude dCustom : float) (g : rng)
  : option (float * rng) :=
  let dFreq := w dHertz * dTime
               + dLFOAmplitude * dHertz * sin (w dLFOHertz * dTime) in
  match t with
  | OSC_SINE => Some (sin dFreq, g)
  | OSC_SQUARE => Some (if 0.0 <? sin dFreq then 1.0 else -1.0, g)
  | OSC_TRIANGLE => Some (asin (sin dFreq) * (2.0 / PI), g)
  | OSC_SAW_ANA =>
      match saw_ana_loop fuel dFreq dCustom 1.0 0.0 with
      | Some dOutput => Some (dOutput * (2.0 / PI), g)
      | None => None
      end
  | OSC_SAW_DIG =>
      Some ((2.0 / PI)
            * (dHertz * PI * fmod dTime (1.0 / dHertz) - (PI / 2.0)), g)
  | OSC_NOISE =>
      let (r, g') := rand g in
      Some (2.0 * (of_int r / of_int RAND_MAX) - 1.0, g')
  | OSC_OTHER _ => Some (0.0, g)
  end.

End Osc.

(** A C library for running the oscillator.  [fmod] is the exact
    remainder of the two binary64 values, with the sign of the dividend, as
    <cmath> computes it; [sin] and [asin] are short Taylor polynomials and
    [rand] is the generator of the C standard. *)
Definition SFfmod (x y : spec_float) : spec_float :=
  match x, y with
  | S754_nan, _ | _, S754_nan => S754_nan
  | S754_infinity _, _ | _, S754_zero _ => S754_nan
  | S754_zero _, _ | _, S754_infinity _ => x
  | S754_finite sx mx ex, S754_finite _ my ey =>
      let e := Z.min ex ey in
      let r := Z.rem (Zpos mx * 2 ^ (ex - e)) (Zpos my * 2 ^ (ey - e)) in
      if (r =? 0)%Z then S754_zero sx
      else binary_normalize prec emax (if sx then (- r)%Z else r) e false
  end.

Definition exact_fmod (x y : float) : float :=
  SF2Prim (SFfmod (Prim2SF x) (Prim2SF y)).

Definition poly_sin (x : float) : float :=
  x - x * x * x / 6.0 + x * x * x * x * x / 120.0.

Definition poly_asin (x : float) : float := x + x * x * x / 6.0.

Definition test_libm : Libm := {|
  PI := 3.14159265358979323846;
  sin := poly_sin;
  asin := poly_asin;
  fmod := exact_fmod;
  rng := Z;
  rand := ansi_rand;
  RAND_MAX := 32767
|}.

(** The default envelope with a release time of 1e-300 seconds. *)
Definition abrupt_release : envelope_adsr := {|
  dAttackTime := 0.1;
  dDecayTime := 0.1;
  dSustainAmplitude := 1.0;
  dReleaseTime := 1e-300;
  dStartAmplitude := 1.0
|}.

End IEEE.

(* ================================================================== *)
(** * Properties *)

(* ------------------------------------------------------------------ *)
(** ** Machine integers *)

Lemma wrap32_small z : int_range z -> wrap32 z = z.
Proof.
  unfold int_range, wrap32. intros H.
  rewrite Z.mod_small; lia.
Qed.

Lemma wrap32_range z : int_range (wrap32 z).
Proof.
  unfold int_range, wrap32.
  pose proof (Z.mod_pos_bound (z + 2 ^ 31) (2 ^ 32)). lia.
Qed.

(* ------------------------------------------------------------------ *)
(** ** Arithmetic on finite values *)

Lemma leb_Fin a b : F.leb (Fin a) (Fin b) = Qle_bool a b.
Proof.
  unfold F.leb, F.compare.
  destruct (Qcompare_spec a b) as [C|C|C];
    destruct (Qle_bool a b) eqn:E; try reflexivity; exfalso.
  - assert (H : a <= b) by lra. apply Qle_bool_iff in H. congruence.
  - assert (H : a <= b) by lra. apply Qle_bool_iff in H. congruence.
  - apply Qle_bool_iff in E. lra.
Qed.

Lemma ltb_Fin a b : F.ltb (Fin a) (Fin b) = negb (Qle_bool b a).
Proof.
  unfold F.ltb, F.compare.
  destruct (Qcompare_spec a b) as [C|C|C];
    destruct (Qle_bool b a) eqn:E; try reflexivity; exfalso.
  - assert (H : b <= a) by lra. apply Qle_bool_iff in H. congruence.
  - apply Qle_bool_iff in E. lra.
  - assert (H : b <= a) by lra. apply Qle_bool_iff in H. congruence.
Qed.

Lemma gtb_Fin a b : F.gtb (Fin a) (Fin b) = negb (Qle_bool a b).
Proof. apply ltb_Fin. Qed.

Lemma geb_Fin a b : F.geb (Fin a) (Fin b) = Qle_bool b a.
Proof. apply leb_Fin. Qed.

Lemma div_Fin a b : ~ b == 0 -> F.div (Fin a) (Fin b) = Fin (a / b).
Proof.
  intros H. unfold F.div.
  destruct (Qeq_bool b 0) eqn:E; [|reflexivity].
  apply Qeq_bool_iff in E. contradiction.
Qed.

Lemma Qle_bool_false a b : Qle_bool a b = false -> b < a.
Proof.
  intros H. apply Qnot_le_lt. intros C. apply Qle_bool_iff in C. congruence.
Qed.

Ltac qbool :=
  repeat match goal with
  | H : Qle_bool _ _ = true |- _ => apply Qle_bool_iff in H
  | H : Qle_bool _ _ = false |- _ => apply Qle_bool_false in H
  end.

Ltac split_if :=
  match goal with
  | |- context [if ?b then _ else _] =>
      let E := fresh "E" in destruct b eqn:E
  end.


(* ------------------------------------------------------------------ *)
(** ** The envelope on finite arguments *)

Lemma amplitude_guard (this : envelope_adsr) t on off :
  exists v, envelope_adsr_amplitude this t on off
            = if F.leb v (Fin 0.01) then Fin 0.0 else v.
Proof. unfold envelope_adsr_amplitude. eexists. reflexivity. Qed.

Lemma amplitude_Fin a d s r st t on off :
  0 < a -> 0 <= d -> 0 < r ->
  amplitude (adsr a d s r st) (Fin t) (Fin on) (Fin off)
  = Fin (snap (adsr_raw a d s r st t on off)).
Proof.
  intros Ha Hd Hr.
  assert (Na : ~ a == 0) by lra. assert (Nr : ~ r == 0) by lra.
  cbn [amplitude envelope_adsr_is_envelope].
  unfold envelope_adsr_amplitude, snap, adsr_raw, adsr_level.
  cbn [adsr dAttackTime dDecayTime dSustainAmplitude dReleaseTime
       dStartAmplitude F.sub F.add].
  rewrite ?gtb_Fin, ?leb_Fin, ?(div_Fin _ a), ?(div_Fin _ r) by assumption.
  unfold F.div.
  destruct (Qle_bool on off) eqn:E0; cbn [negb].
  - destruct (Qle_bool (off - on) a) eqn:E1;
      destruct (Qle_bool (off - on) (a + d)) eqn:E2;
      destruct (Qeq_bool d 0) eqn:E3;
      cbn [negb andb F.mul F.add F.sub]; rewrite ?leb_Fin;
      try (split_if; reflexivity); exfalso; qbool;
      try apply Qeq_bool_iff in E3; lra.
  - destruct (Qle_bool (t - on) a) eqn:E1;
      destruct (Qle_bool (t - on) (a + d)) eqn:E2;
      destruct (Qeq_bool d 0) eqn:E3;
      cbn [negb andb F.mul F.add F.sub]; rewrite ?leb_Fin;
      try (split_if; reflexivity); exfalso; qbool;
      try apply Qeq_bool_iff in E3; lra.
Qed.

Lemma adsr_level_le_1 a d s st l :
  0 < a -> 0 <= d -> 0 <= s <= 1 -> 0 <= st <= 1 ->
  adsr_level a d s st l <= 1.
Proof.
  intros Ha Hd Hs Hst. unfold adsr_level.
  destruct (Qle_bool l a) eqn:E1; [|destruct (Qle_bool l (a + d)) eqn:E2];
    qbool.
  - assert (Hu : l / a <= 1) by (apply Qle_shift_div_r; lra).
    set (u := l / a) in *. nra.
  - assert (Hd' : 0 < d) by lra.
    assert (Hu : (l - a) / d <= 1) by (apply Qle_shift_div_r; lra).
    assert (Hu0 : 0 <= (l - a) / d) by (apply Qle_shift_div_l; lra).
    set (u := (l - a) / d) in *. nra.
  - lra.
Qed.

Lemma adsr_level_ge_0 a d s st l :
  0 < a -> 0 <= d -> 0 <= s <= 1 -> 0 <= st <= 1 -> 0 <= l ->
  0 <= adsr_level a d s st l.
Proof.
  intros Ha Hd Hs Hst Hl. unfold adsr_level.
  destruct (Qle_bool l a) eqn:E1; [|destruct (Qle_bool l (a + d)) eqn:E2];
    qbool.
  - assert (Hu0 : 0 <= l / a) by (apply Qle_shift_div_l; lra).
    set (u := l / a) in *. nra.
  - assert (Hd' : 0 < d) by lra.
    assert (Hu : (l - a) / d <= 1) by (apply Qle_shift_div_r; lra).
    assert (Hu0 : 0 <= (l - a) / d) by (apply Qle_shift_div_l; lra).
    set (u := (l - a) / d) in *. nra.
  - lra.
Qed.

Lemma snap_cases q : (snap q = 0.0 /\ q <= 0.01) \/ (snap q = q /\ 0.01 < q).
Proof.
  unfold snap. destruct (Qle_bool q 0.01) eqn:E; qbool.
  - left. split; [reflexivity | assumption].
  - right. split; [reflexivity | assumption].
Qed.


(** A raw level within the guard is reported as a finished envelope. *)
Lemma amplitude_snapped a d s r st t on off :
  0 < a -> 0 <= d -> 0 < r ->
  adsr_raw a d s r st t on off <= 0.01 ->
  amplitude (adsr a d s r st) (Fin t) (Fin on) (Fin off) = Fin 0.0.
Proof.
  intros Ha Hd Hr H. rewrite amplitude_Fin by assumption.
  destruct (snap_cases (adsr_raw a d s r st t on off)) as [[-> _]|[_ C]];
    [reflexivity|lra].
Qed.

(** The sounding phase never touches the release time: for a note with
    [off < on] the result is the guarded level of the cascade, also when
    the attack time is zero, as long as the lifetime is then positive. *)
Lemma amplitude_sounding a d s st (R : FTYPE) t on off :
  off < on -> 0 <= a -> 0 <= d -> 0 < a \/ 0 < t - on ->
  amplitude {| dAttackTime := Fin a; dDecayTime := Fin d;
               dSustainAmplitude := Fin s; dReleaseTime := R;
               dStartAmplitude := Fin st |} (Fin t) (Fin on) (Fin off)
  = Fin (snap (adsr_level a d s st (t - on))).
Proof.
  intros Hoo Ha Hd Hpos.
  cbn [amplitude envelope_adsr_is_envelope].
  unfold envelope_adsr_amplitude, snap, adsr_level.
  cbn [dAttackTime dDecayTime dSustainAmplitude dReleaseTime
       dStartAmplitude F.sub F.add].
  rewrite ?gtb_Fin, ?leb_Fin. unfold F.div.
  destruct (Qle_bool on off) eqn:E0; cbn [negb]; [qbool; lra|].
  destruct (Qle_bool (t - on) a) eqn:E1;
    destruct (Qle_bool (t - on) (a + d)) eqn:E2;
    destruct (Qeq_bool a 0) eqn:E4;
    destruct (Qeq_bool d 0) eqn:E3;
    cbn [negb andb F.mul F.add F.sub]; rewrite ?leb_Fin;
    try (split_if; reflexivity); exfalso; qbool;
    try apply Qeq_bool_iff in E3; try apply Qeq_bool_iff in E4; lra.
Qed.

Lemma adsr_level_past_attack a d s st l :
  0 <= a -> 0 <= d -> 0 <= s <= 1 -> 0 <= st <= 1 -> a < l ->
  0 <= adsr_level a d s st l <= 1.
Proof.
  intros Ha Hd Hs Hst Hl. unfold adsr_level.
  destruct (Qle_bool l a) eqn:E1; qbool; [lra|].
  destruct (Qle_bool l (a + d)) eqn:E2; qbool; [|lra].
  assert (Hd' : 0 < d) by lra.
  assert (Hu : (l - a) / d <= 1) by (apply Qle_shift_div_r; lra).
  assert (Hu0 : 0 <= (l - a) / d) by (apply Qle_shift_div_l; lra).
  set (u := (l - a) / d) in *. split; nra.
Qed.

Lemma snap_range q : q <= 1 -> 0 <= snap q <= 1.
Proof.
  intros H. destruct (snap_cases q) as [[-> _]|[-> H1]].
  - split; discriminate.
  - lra.
Qed.

Lemma snap_comp q q' : q == q' -> snap q == snap q'.
Proof.
  intros H. unfold snap. rewrite (Qleb_comp _ _ H 0.01 0.01 (Qeq_refl _)).
  destruct (Qle_bool q' 0.01); [reflexivity|exact H].
Qed.

Lemma snap_mono q q' : q <= q' -> snap q <= snap q'.
Proof.
  intros H. destruct (snap_cases q) as [[-> H1]|[-> H1]];
    destruct (snap_cases q') as [[-> H2]|[-> H2]]; lra.
Qed.

Lemma adsr_raw_release a d s r st t on off :
  on <= off ->
  adsr_raw a d s r st t on off
  = (t - off) / r * (0.0 - adsr_level a d s st (off - on))
    + adsr_level a d s st (off - on).
Proof.
  intros H. unfold adsr_raw.
  apply Qle_bool_iff in H. rewrite H. reflexivity.
Qed.

Lemma amplitude_unit_range a d s r st t on off :
  0 < a -> 0 <= d -> 0 < r -> 0 <= s <= 1 -> 0 <= st <= 1 ->
  off < on \/ off <= t ->
  exists v, amplitude (adsr a d s r st) (Fin t) (Fin on) (Fin off) = Fin v
            /\ 0 <= v <= 1.
Proof.
  intros Ha Hd Hr Hs Hst Hph. eexists. split; [apply amplitude_Fin; lra|].
  apply snap_range. unfold adsr_raw.
  destruct (Qle_bool on off) eqn:E0; qbool.
  - assert (Ht : off <= t) by lra.
    pose proof (adsr_level_le_1 a d s st (off - on) Ha Hd Hs Hst) as U.
    assert (Hl : 0 <= off - on) by lra.
    pose proof (adsr_level_ge_0 a d s st (off - on) Ha Hd Hs Hst Hl) as L.
    assert (Hk : 0 <= (t - off) / r) by (apply Qle_shift_div_l; lra).
    set (k := (t - off) / r) in *.
    set (ra := adsr_level a d s st (off - on)) in *. nra.
  - apply adsr_level_le_1; assumption.
Qed.





(* ------------------------------------------------------------------ *)
(** ** The pitch mapper *)

Lemma SEMITONE_nonzero : ~ SEMITONE == 0.
Proof. intros H. apply Qeq_bool_iff in H. vm_compute in H. discriminate. Qed.

Lemma scale_Fin nNoteID nScaleID :
  scale nNoteID nScaleID = Fin (8 * SEMITONE ^ nNoteID).
Proof.
  assert (E : F.pow (Fin SEMITONE) nNoteID = Fin (SEMITONE ^ nNoteID)).
  { unfold F.pow. destruct (Z.eqb_spec nNoteID 0) as [->|N]; [reflexivity|].
    replace (Qeq_bool SEMITONE 0) with false by (vm_compute; reflexivity).
    reflexivity. }
  unfold scale. rewrite E. destruct (nScaleID =? SCALE_DEFAULT)%Z; reflexivity.
Qed.

Lemma SEMITONE_octave :
  - (1 # 10 ^ 30) <= SEMITONE ^ 12 - 2 <= 1 # 10 ^ 30.
Proof.
  split; apply Qle_bool_iff; vm_compute; reflexivity.
Qed.

(** C6. [scale(0)] is 8, and for every semitone id, [scale(id + 12)] is
    [scale(id)] times the twelfth power of the semitone ratio, which is 2
    to within a relative error of 10^-30, far below the resolution of a
    [double]. *)
Theorem scale_octave :
  (forall nScaleID, scale 0 nScaleID = Fin 8)
  /\ (forall nNoteID nScaleID,
        exists f f',
          scale nNoteID nScaleID = Fin f
          /\ scale (nNoteID + 12) nScaleID = Fin f'
          /\ 0 < f
          /\ f' == f * SEMITONE ^ 12
          /\ Qabs (f' - f * 2) <= f * (1 # 10 ^ 30)).
Proof.
  split.
  - intros k. unfold scale. destruct (k =? SCALE_DEFAULT)%Z; reflexivity.
  - intros n k. exists (8 * SEMITONE ^ n), (8 * SEMITONE ^ (n + 12)).
    assert (Hp : 0 < SEMITONE ^ n) by (apply Qpower_0_lt; reflexivity).
    assert (Ho : SEMITONE ^ (n + 12) == SEMITONE ^ n * SEMITONE ^ 12)
      by (apply Qpower_plus, SEMITONE_nonzero).
    pose proof SEMITONE_octave as [Hl Hu].
    repeat split; try apply scale_Fin.
    + lra.
    + rewrite Ho. ring.
    + apply Qabs_Qle_condition. rewrite Ho.
      set (p := SEMITONE ^ n) in *. set (o := SEMITONE ^ 12) in *.
      split; nra.
Qed.

(* ------------------------------------------------------------------ *)
(** ** The oscillator and the instruments *)

Section SoundFacts.
Context `{P : Platform}.

(** The harmonic sum stops once the counter has reached [dCustom]. *)
Lemma saw_ana_loop_stops dFreq c : forall fuel q out,
  c <= inject_Z (Z.of_nat fuel) + q ->
  exists r, saw_ana_loop fuel dFreq (Fin c) (Fin q) out = Some r.
Proof.
  induction fuel as [|fuel IH]; intros q out H; cbn [saw_ana_loop];
    rewrite ltb_Fin.
  - destruct (Qle_bool c q) eqn:E; cbn [negb]; [eauto|].
    qbool. change (inject_Z (Z.of_nat 0)) with 0 in H. lra.
  - destruct (Qle_bool c q) eqn:E; cbn [negb]; [eauto|].
    cbn [F.add]. apply IH.
    rewrite Nat2Z.inj_succ in H. unfold Z.succ in H.
    rewrite inject_Z_plus in H. change (inject_Z 1) with 1 in H. lra.
Qed.

(** With a finite shape parameter every oscillator kind returns. *)
Lemma osc_returns dTime dHertz t lfo amp c g :
  exists v g', osc dTime dHertz t lfo amp (Fin c) g = Some (v, g').
Proof.
  unfold osc. destruct t; try (unfold ret; eauto).
  - destruct (saw_ana_loop_stops
                (w dHertz * dTime + amp * dHertz * sin (w lfo * dTime))%F
                c (saw_ana_fuel (Fin c)) 1.0 (Fin 0.0)) as [r Hr].
    + cbn [saw_ana_fuel].
      pose proof (Qle_ceiling c) as Hc.
      assert (Hz : (Qceiling c <= Z.of_nat (Z.to_nat (Qceiling c)))%Z)
        by lia.
      rewrite Zle_Qle in Hz. lra.
    + rewrite Hr. unfold ret. eauto.
  - unfold bind, call_rand, ret. destruct (rand g). eauto.
Qed.

Lemma bind_osc {B} dTime dHertz t lfo amp c (k : FTYPE -> M B) g :
  exists v g',
    bind (osc dTime dHertz t lfo amp (Fin c)) k g = k v g'.
Proof.
  destruct (osc_returns dTime dHertz t lfo amp c g) as (v & g' & E).
  exists v, g'. unfold bind. rewrite E. reflexivity.
Qed.

Ltac run_osc :=
  match goal with
  | |- context [bind (osc ?a ?b ?t ?l ?m (Fin ?c)) ?k ?g] =>
      let v := fresh "v" in
      let g' := fresh "g" in
      let E := fresh "E" in
      destruct (bind_osc a b t l m c k g) as (v & g' & E);
      rewrite E; clear E; cbv beta
  end.

(** The three envelope-driven overrides: the sample is the envelope
    amplitude times the mix times the volume, and the flag is raised by
    the test [dAmplitude <= 0.0] alone. *)
Lemma sound_envelope_driven this dTime n b g :
  envelope_driven this ->
  exists dSound g',
    sound this dTime n b g
    = Some ((amplitude (env this) dTime (on n) (off n)
             * dSound * dVolume this)%F,
            if (amplitude (env this) dTime (on n) (off n) <=? Fin 0.0)%F
            then true else b,
            g').
Proof.
  intros [H|[H|H]]; unfold sound; rewrite H.
  - unfold instrument_bell_sound, osc5, osc2, synth_env.
    repeat run_osc. unfold ret. eauto.
  - unfold instrument_bell8_sound, osc5, osc2, synth_env.
    repeat run_osc. unfold ret. eauto.
  - unfold instrument_harmonica_sound, osc5, osc3, synth_env, F.of_int.
    repeat run_osc. unfold ret. eauto.
Qed.

(** The three timeout-driven overrides. *)
Lemma sound_timeout_driven this dTime n b g :
  timeout_driven this ->
  exists dSound g',
    sound this dTime n b g
    = Some ((amplitude (env this) dTime (on n) (off n)
             * dSound * dVolume this)%F,
            if (fMaxLifeTime this >? Fin 0.0)%F
               && (dTime - on n >=? fMaxLifeTime this)%F
            then true else b,
            g').
Proof.
  intros [H|[H|H]]; unfold sound; rewrite H.
  - unfold instrument_drumkick_sound, osc5, osc3, synth_env, F.of_int.
    repeat run_osc. unfold ret. eauto.
  - unfold instrument_drumsnare_sound, osc5, osc3, synth_env, F.of_int.
    repeat run_osc. unfold ret. eauto.
  - unfold instrument_drumhihat_sound, osc5, osc3, synth_env, F.of_int.
    repeat run_osc. unfold ret. eauto.
Qed.

(** The Bell's envelope reports a note released at its onset as
    finished. *)
Lemma bell_released_at_onset t on0 off0 :
  on0 == off0 ->
  amplitude (env instrument_bell) (Fin t) (Fin on0) (Fin off0) = Fin 0.0.
Proof.
  intros Hoo.
  change (env instrument_bell) with (adsr 0.01 1.0 0.0 1.0 1.0).
  apply amplitude_snapped; try reflexivity; try discriminate.
  unfold adsr_raw, adsr_level.
  destruct (Qle_bool on0 off0) eqn:E0; qbool; [|lra].
  assert (El : off0 - on0 == 0) by lra.
  destruct (Qle_bool (off0 - on0) 0.01) eqn:E1; qbool; [|lra].
  assert (Z1 : (off0 - on0) / 0.01 == 0) by (rewrite El; reflexivity).
  rewrite Z1. lra.
Qed.

(** The Bell's envelope is still within the guard during the first
    hundredth of its attack. *)
Lemma bell_sounding_onset t on0 off0 :
  off0 < on0 -> t - on0 <= 0.0001 ->
  amplitude (env instrument_bell) (Fin t) (Fin on0) (Fin off0) = Fin 0.0.
Proof.
  intros Hoo Ht.
  change (env instrument_bell) with (adsr 0.01 1.0 0.0 1.0 1.0).
  apply amplitude_snapped; try reflexivity; try discriminate.
  unfold adsr_raw, adsr_level.
  destruct (Qle_bool on0 off0) eqn:E0; qbool; [lra|].
  destruct (Qle_bool (t - on0) 0.01) eqn:E1; qbool; [|lra].
  assert (Hu : (t - on0) / 0.01 <= 0.01)
    by (apply Qle_shift_div_r; [reflexivity | lra]).
  lra.
Qed.

(** C3, as it holds of the code.  For Bell, 8-bit Bell and Harmonica,
    [sound] returns with [noteFinished] set to true exactly when the
    envelope amplitude is <= 0, and left as it was passed in otherwise.
    That happens to notes that were never released: the envelope takes a
    note for sounding only when [onTime > offTime], so the Bell with
    [onTime = offTime = 0] at time 0.005 is in its release phase and is
    reported finished; and a sounding Bell is reported finished while its
    attack ramp is still within the 0.01 guard. *)
Theorem envelope_driven_finish :
  (forall this dTime n b g,
      In this [instrument_bell; instrument_bell8; instrument_harmonica] ->
      exists dSound g',
        sound this dTime n b g
        = Some ((amplitude (env this) dTime (on n) (off n)
                 * dSound * dVolume this)%F,
                if (amplitude (env this) dTime (on n) (off n) <=? Fin 0.0)%F
                then true else b,
                g'))
  /\ (forall n b g on0 off0,
        on n = Fin on0 -> off n = Fin off0 -> on0 == 0 -> off0 == 0 ->
        exists v g',
          sound instrument_bell (Fin 0.005) n b g = Some (v, true, g'))
  /\ (forall n b g t on0 off0,
        on n = Fin on0 -> off n = Fin off0 ->
        off0 < on0 -> t - on0 <= 0.0001 ->
        exists v g',
          sound instrument_bell (Fin t) n b g = Some (v, true, g')).
Proof.
  split; [|split].
  - intros this dTime n b g Hin. apply sound_envelope_driven.
    unfold envelope_driven.
    destruct Hin as [<-|[<-|[<-|[]]]]; cbn [vptr]; auto.
  - intros n b g on0 off0 Hon Hoff H0 H1.
    destruct (sound_envelope_driven instrument_bell (Fin 0.005) n b g)
      as (dSound & g' & E); [left; reflexivity|].
    rewrite E, Hon, Hoff, bell_released_at_onset by lra. eauto.
  - intros n b g t on0 off0 Hon Hoff H0 H1.
    destruct (sound_envelope_driven instrument_bell (Fin t) n b g)
      as (dSound & g' & E); [left; reflexivity|].
    rewrite E, Hon, Hoff, bell_sounding_onset by assumption. eauto.
Qed.

(** C7. For the Drum Kick (maximum lifetime 1.5), the Drum Snare (1.0)
    and the Drum Hi-Hat (1.0), [sound] returns with [noteFinished] set to
    true whenever [time - note.on >= maxLifetime], whatever the envelope
    and whatever the sample. *)
Theorem timeout_driven_finish this L dTime n b g :
  In (this, L) [(instrument_drumkick, 1.5); (instrument_drumsnare, 1.0);
                (instrument_drumhihat, 1.0)] ->
  (dTime - on n >=? Fin L)%F = true ->
  fMaxLifeTime this = Fin L
  /\ exists v g', sound this dTime n b g = Some (v, true, g').
Proof.
  intros Hin Hlife.
  assert (H : fMaxLifeTime this = Fin L
              /\ (fMaxLifeTime this >? Fin 0.0)%F = true
              /\ timeout_driven this).
  { unfold timeout_driven.
    destruct Hin as [E|[E|[E|[]]]]; injection E as <- <-;
      cbn [vptr fMaxLifeTime]; repeat split; auto. }
  destruct H as (HL & Hpos & Hdrum). split; [exact HL|].
  destruct (sound_timeout_driven this dTime n b g Hdrum)
    as (dSound & g' & E).
  rewrite E, Hpos, HL, Hlife. cbn [andb]. eauto.
Qed.

End SoundFacts.

(** C2. The envelopes the constructors build with a zero attack or release
    time divide by that zero: the Drum Snare and the Harmonica return NaN
    for a sounding note at its onset, the drums return NaN or an infinity
    in the release phase, and for a Drum Snare note started at time 1 the
    sample [sound] returns at time 1 is that NaN. *)
Theorem zero_length_segment_not_finite :
  dAttackTime (env instrument_drumsnare) = Fin 0.0
  /\ dAttackTime (env instrument_harmonica) = Fin 0.00
  /\ dReleaseTime (env instrument_drumkick) = Fin 0.0
  /\ amplitude (env instrument_drumsnare) (Fin 1) (Fin 1) (Fin 0) = NaN
  /\ amplitude (env instrument_harmonica) (Fin 1) (Fin 1) (Fin 0) = NaN
  /\ amplitude (env instrument_drumkick) (Fin 0.005) (Fin 0) (Fin 0) = NaN
  /\ amplitude (env instrument_drumkick) (Fin 0.001) (Fin 0) (Fin 0.005)
     = PInf
  /\ (forall (P : Platform) b g,
        let n := {| id := 64; on := Fin 1; off := Fin 0; active := true;
                    channel := Some instrument_drumsnare |} in
        exists b' g',
          sound instrument_drumsnare (Fin 1) n b g = Some (NaN, b', g')).
Proof.
  do 7 (split; [vm_compute; reflexivity|]).
  intros P b g n.
  destruct (sound_timeout_driven instrument_drumsnare (Fin 1) n b g)
    as (dSound & g' & E); [right; left; reflexivity|].
  rewrite E. eauto.
Qed.

Lemma envelope_driven_finish_witness :
  In instrument_bell [instrument_bell; instrument_bell8; instrument_harmonica]
  /\ exists dSound g',
       @sound test_platform instrument_bell (Fin 2) note_new false 1%Z
       = Some ((amplitude (env instrument_bell) (Fin 2) (on note_new)
                          (off note_new)
                * dSound * dVolume instrument_bell)%F,
               if (amplitude (env instrument_bell) (Fin 2) (on note_new)
                             (off note_new) <=? Fin 0.0)%F
               then true else false,
               g').
Proof.
  split; [left; reflexivity|].
  apply (proj1 (@envelope_driven_finish test_platform)).
  left. reflexivity.
Defined.

(** C3, as stated, fails on its own scenario: the Bell with
    [onTime = offTime = 0], asked at time 0.005 with the flag clear,
    returns with the flag set. *)
Lemma bell_scenario_reported_finished :
  on note_new = Fin 0.0 /\ off note_new = Fin 0.0
  /\ exists v g',
       @sound test_platform instrument_bell (Fin 0.005) note_new false 1%Z
       = Some (v, true, g').
Proof.
  split; [reflexivity|]. split; [reflexivity|].
  destruct (@sound_envelope_driven test_platform instrument_bell
              (Fin 0.005) note_new false 1%Z) as (dSound & g' & E);
    [left; reflexivity|].
  rewrite E. eauto.
Qed.

Lemma timeout_driven_finish_witness :
  In (instrument_drumkick, 1.5)
     [(instrument_drumkick, 1.5); (instrument_drumsnare, 1.0);
      (instrument_drumhihat, 1.0)]
  /\ (Fin 1.6 - on note_new >=? Fin 1.5)%F = true
  /\ fMaxLifeTime instrument_drumkick = Fin 1.5
  /\ exists v g',
       @sound test_platform instrument_drumkick (Fin 1.6) note_new false 1%Z
       = Some (v, true, g').
Proof.
  split; [left; reflexivity|]. split; [reflexivity|].
  apply (@timeout_driven_finish test_platform instrument_drumkick 1.5
           (Fin 1.6) note_new false 1%Z).
  - left. reflexivity.
  - reflexivity.
Defined.

(* ------------------------------------------------------------------ *)
(** ** The sequencer *)

Local Open Scope Z_scope.

Lemma string_get_in_range : forall s n,
  (n < String.length s)%nat -> exists ch, String.get n s = Some ch.
Proof.
  induction s as [|a s IH]; intros n H; cbn in *; [lia|].
  destruct n; [eauto|]. apply IH. lia.
Qed.

Lemma string_get_none : forall s n,
  (String.length s <= n)%nat -> String.get n s = None.
Proof.
  induction s as [|a s IH]; intros n H; cbn in *; [reflexivity|].
  destruct n; [lia|]. apply IH. lia.
Qed.

Lemma wstring_at_in_bounds s pos :
  0 <= pos <= Z.of_nat (String.length s) ->
  exists ch, wstring_at s pos = Some ch.
Proof.
  intros H. unfold wstring_at.
  destruct (Z.ltb_spec pos 0); [lia|].
  destruct (String.get (Z.to_nat pos) s) eqn:E; [eauto|].
  destruct (Z.eqb_spec pos (Z.of_nat (String.length s))); [eauto|].
  destruct (string_get_in_range s (Z.to_nat pos)) as [ch Hc]; [lia|].
  congruence.
Qed.

Lemma wstring_at_out_of_bounds s pos :
  pos < 0 \/ Z.of_nat (String.length s) < pos -> wstring_at s pos = None.
Proof.
  intros H. unfold wstring_at.
  destruct (Z.ltb_spec pos 0); [reflexivity|].
  rewrite string_get_none by lia.
  destruct (Z.eqb_spec pos (Z.of_nat (String.length s))); [lia|reflexivity].
Qed.

Lemma vector_at_app {A} (pre : list A) v rest :
  vector_at (pre ++ v :: rest) (Z.of_nat (List.length pre)) = Some v.
Proof.
  unfold vector_at.
  destruct (Z.ltb_spec (Z.of_nat (List.length pre)) 0); [lia|].
  rewrite Nat2Z.id, nth_error_app2, Nat.sub_diag by lia. reflexivity.
Qed.

(** The running index [c] of the range-for is the position of [v]. *)
Lemma Update_channels_index (all pre rest : list sequencer_channel) v c :
  all = pre ++ v :: rest ->
  c = Z.of_nat (List.length pre) ->
  Z.of_nat (List.length all) < 2 ^ 31 ->
  wrap32 (c + 1) = Z.of_nat (List.length (pre ++ [v]))
  /\ all = (pre ++ [v]) ++ rest
  /\ vector_at all c = Some v.
Proof.
  intros Hall Hc Hlen. split; [|split].
  - rewrite length_app. cbn [List.length].
    assert (Hl : (List.length pre < List.length all)%nat).
    { rewrite Hall, length_app. cbn [List.length]. lia. }
    rewrite wrap32_small; unfold int_range; lia.
  - rewrite <- app_assoc. exact Hall.
  - rewrite Hall, Hc. apply vector_at_app.
Qed.

(** The notes of one step: one per channel whose pattern has the
    marker at that step, in channel order. *)
Lemma Update_channels_exact all cur : forall rest pre c notes notes',
  all = pre ++ rest ->
  c = Z.of_nat (List.length pre) ->
  Z.of_nat (List.length all) < 2 ^ 31 ->
  Update_channels all cur rest c notes = Returns notes' ->
  notes' = notes ++ step_notes rest cur.
Proof.
  induction rest as [|v rest IH]; intros pre c notes notes' Hall Hc Hlen H;
    cbn [Update_channels] in H.
  - injection H as <-. unfold step_notes. cbn. rewrite app_nil_r. reflexivity.
  - destruct (Update_channels_index all pre rest v c Hall Hc Hlen)
      as (Hnext & Hall' & Hv).
    unfold step_notes. cbn [filter]. unfold triggers at 1.
    destruct (wstring_at (sBeat v) cur) as [ch|] eqn:Ech; [|discriminate].
    destruct (Ascii.eqb ch "X") eqn:EX.
    + rewrite Hv in H.
      rewrite (IH _ _ _ _ Hall' Hnext Hlen H).
      cbn [map]. rewrite <- app_assoc. reflexivity.
    + exact (IH _ _ _ _ Hall' Hnext Hlen H).
Qed.

Lemma run_notes_triggered chans total : forall k cur,
  Forall (triggered_at chans total cur k) (run_notes chans total cur k).
Proof.
  induction k as [|k IH]; intros cur; cbn [run_notes]; [constructor|].
  apply Forall_app. split.
  - unfold step_notes. apply Forall_forall. intros n Hn.
    apply in_map_iff in Hn as (v & <- & Hv).
    apply filter_In in Hv as [Hin Ht].
    unfold triggers in Ht.
    destruct (wstring_at (sBeat v) (next_beat total cur)) as [ch|] eqn:E;
      [|discriminate].
    apply Ascii.eqb_eq in Ht. subst ch.
    repeat split. exists v, O. repeat split; [lia|exact Hin|exact E].
  - eapply Forall_impl; [|apply IH].
    intros n (H1 & H2 & H3 & H4 & v & j & Hj & Hin & Hx & Hc).
    repeat split; try assumption.
    exists v, (S j). repeat split; [lia|exact Hin|exact Hx|exact Hc].
Qed.

(** The loop, step by step, whatever the values in the accumulator. *)
Lemma Update_loop_trace : forall fuel this this',
  Z.of_nat (List.length (vecChannel this)) < 2 ^ 31 ->
  Update_loop fuel this = Returns this' ->
  exists k : nat,
    nCurrentBeat this'
    = run_beat (nTotalBeats this) (nCurrentBeat this) k
    /\ vecNotes this'
       = vecNotes this
         ++ run_notes (vecChannel this) (nTotalBeats this)
                      (nCurrentBeat this) k
    /\ vecChannel this' = vecChannel this
    /\ nTotalBeats this' = nTotalBeats this.
Proof.
  induction fuel as [|fuel IH]; intros this this' Hlen H;
    cbn [Update_loop] in H;
    destruct (fAccumulate this >=? fBeatTime this)%F; try discriminate.
  - injection H as <-. exists O. cbn [run_beat run_notes].
    rewrite app_nil_r. auto.
  - match type of H with
    | match ?u with _ => _ end = _ => destruct u as [notes| |] eqn:Ec
    end; try discriminate.
    apply (Update_channels_exact _ _ _ [] 0) in Ec;
      [|reflexivity|reflexivity|assumption]. subst notes.
    apply IH in H; [|exact Hlen].
    cbn [set_step vecChannel vecNotes nTotalBeats nCurrentBeat] in H.
    destruct H as (k & Hcur & Hnotes & Hch & Htot).
    exists (S k). cbn [run_beat run_notes].
    fold (next_beat (nTotalBeats this) (nCurrentBeat this)) in *.
    repeat split; auto.
    rewrite Hnotes, app_assoc. reflexivity.
  - injection H as <-. exists O. cbn [run_beat run_notes].
    rewrite app_nil_r. auto.
Qed.

Lemma Update_channels_in_bounds all cur : forall rest pre c notes,
  all = pre ++ rest ->
  c = Z.of_nat (List.length pre) ->
  Z.of_nat (List.length all) < 2 ^ 31 ->
  Forall (fun v => 0 <= cur <= Z.of_nat (String.length (sBeat v))) rest ->
  exists notes', Update_channels all cur rest c notes = Returns notes'.
Proof.
  induction rest as [|v rest IH]; intros pre c notes Hall Hc Hlen Hb;
    cbn [Update_channels].
  - eauto.
  - destruct (Update_channels_index all pre rest v c Hall Hc Hlen)
      as (Hnext & Hall' & Hv).
    apply Forall_cons_iff in Hb as [Hbv Hrest].
    destruct (wstring_at_in_bounds (sBeat v) cur Hbv) as [ch ->].
    destruct (Ascii.eqb ch "X").
    + rewrite Hv. apply (IH (pre ++ [v])); auto.
    + apply (IH (pre ++ [v])); auto.
Qed.

Lemma Update_loop_in_bounds : forall fuel this,
  playable this ->
  Update_loop fuel this <> OutOfBounds
  /\ forall this', Update_loop fuel this = Returns this' -> playable this'.
Proof.
  induction fuel as [|fuel IH]; intros this Hp; cbn [Update_loop];
    destruct (fAccumulate this >=? fBeatTime this)%F.
  - split; [discriminate|]. intros ? H. discriminate.
  - split; [discriminate|]. intros ? H. injection H as <-. exact Hp.
  - destruct Hp as (Ht & Hc0 & Hc1 & Hlen & Hpat).
    assert (Hw : wrap32 (nCurrentBeat this + 1) = nCurrentBeat this + 1).
    { apply wrap32_small. unfold int_range in *. lia. }
    rewrite Hw.
    set (cur := if nCurrentBeat this + 1 >=? nTotalBeats this
                then 0 else nCurrentBeat this + 1).
    assert (Hcur : 0 <= cur /\ (cur < nTotalBeats this \/ cur = 0)).
    { subst cur.
      destruct (Z.geb_spec (nCurrentBeat this + 1) (nTotalBeats this)); lia. }
    destruct (Update_channels_in_bounds (vecChannel this) cur
                (vecChannel this) [] 0 (vecNotes this)) as [notes ->];
      [reflexivity|reflexivity|assumption| |].
    + eapply Forall_impl; [|exact Hpat]. cbn. intros v Hv. lia.
    + apply IH. unfold playable.
      cbn [set_step nTotalBeats nCurrentBeat vecChannel]. tauto.
  - split; [discriminate|]. intros ? H. injection H as <-. exact Hp.
Qed.

Lemma Update_in_bounds fuel this dt :
  playable this ->
  Update fuel this dt <> OutOfBounds
  /\ forall k this', Update fuel this dt = Returns (k, this') -> playable this'.
Proof.
  intros Hp. unfold Update.
  set (s := set_step this _ _ _).
  assert (Hs : playable s) by exact Hp.
  destruct (Update_loop_in_bounds fuel s Hs) as [Hn Hr].
  destruct (Update_loop fuel s) as [s'| |]; try congruence.
  - split; [discriminate|]. intros k this' H. injection H as <- <-. auto.
  - split; [discriminate|]. intros ? ? H. discriminate.
Qed.

Lemma Updates_in_bounds fuel : forall dts this,
  playable this -> Updates fuel this dts <> OutOfBounds.
Proof.
  induction dts as [|dt dts IH]; intros this Hp; cbn [Updates].
  - discriminate.
  - destruct (Update_in_bounds fuel this dt Hp) as [Hn Hr].
    destruct (Update fuel this dt) as [[k s]| |]; try congruence.
    specialize (IH s (Hr _ _ eq_refl)).
    destruct (Updates fuel s dts) as [[ks s']| |]; congruence.
Qed.

(** *** Fuel: a call that returns keeps its result with more fuel *)

Lemma Update_loop_more_fuel : forall fuel this r k,
  Update_loop fuel this = Returns r ->
  Update_loop (fuel + k) this = Returns r.
Proof.
  induction fuel as [|fuel IH]; intros this r k H.
  - cbn [Update_loop] in H.
    destruct (fAccumulate this >=? fBeatTime this)%F eqn:E; [discriminate|].
    destruct k; cbn [Nat.add Update_loop]; rewrite E; exact H.
  - cbn [Nat.add Update_loop] in *.
    destruct (fAccumulate this >=? fBeatTime this)%F; [|exact H].
    destruct (Update_channels _ _ _ _ _); try discriminate.
    apply IH. exact H.
Qed.

Lemma Update_more_fuel fuel this dt r k :
  Update fuel this dt = Returns r ->
  Update (fuel + k) this dt = Returns r.
Proof.
  unfold Update. intros H.
  destruct (Update_loop fuel _) as [s| |] eqn:E; try discriminate.
  rewrite (Update_loop_more_fuel _ _ _ k E). exact H.
Qed.

Lemma Updates_more_fuel fuel k : forall dts this r,
  Updates fuel this dts = Returns r ->
  Updates (fuel + k) this dts = Returns r.
Proof.
  induction dts as [|dt dts IH]; intros this r H; cbn [Updates] in *.
  - exact H.
  - destruct (Update fuel this dt) as [[n s]| |] eqn:E; try discriminate.
    rewrite (Update_more_fuel _ _ _ _ k E).
    destruct (Updates fuel s dts) as [[ks s']| |] eqn:E'; try discriminate.
    rewrite (IH _ _ E'). exact H.
Qed.

(** *** Termination: a positive step duration drains the accumulator *)

Lemma Update_loop_returns : forall fuel this a b,
  playable this ->
  fAccumulate this = Fin a -> fBeatTime this = Fin b ->
  (0 < b)%Q -> (a < b * (inject_Z (Z.of_nat fuel) + 1))%Q ->
  exists this', Update_loop fuel this = Returns this'.
Proof.
  induction fuel as [|fuel IH]; intros this a b Hp Ha Hb Hpos Hfuel;
    cbn [Update_loop]; rewrite Ha, Hb, geb_Fin;
    destruct (Qle_bool b a) eqn:E; eauto; qbool.
  - change (inject_Z (Z.of_nat 0)) with 0%Q in Hfuel. lra.
  - destruct Hp as (Ht & Hc0 & Hc1 & Hlen & Hpat).
    assert (Hw : wrap32 (nCurrentBeat this + 1) = nCurrentBeat this + 1).
    { apply wrap32_small. unfold int_range in *. lia. }
    rewrite Hw.
    set (cur := if nCurrentBeat this + 1 >=? nTotalBeats this
                then 0 else nCurrentBeat this + 1).
    assert (Hcur : 0 <= cur /\ (cur < nTotalBeats this \/ cur = 0)).
    { subst cur.
      destruct (Z.geb_spec (nCurrentBeat this + 1) (nTotalBeats this)); lia. }
    destruct (Update_channels_in_bounds (vecChannel this) cur
                (vecChannel this) [] 0 (vecNotes this)) as [notes ->];
      [reflexivity|reflexivity|assumption| |].
    + eapply Forall_impl; [|exact Hpat]. cbn. intros v Hv. lia.
    + cbn [F.sub].
      apply (IH _ (a - b)%Q b); try reflexivity; try assumption.
      * unfold playable.
        cbn [set_step nTotalBeats nCurrentBeat vecChannel]. tauto.
      * rewrite Nat2Z.inj_succ in Hfuel. unfold Z.succ in Hfuel.
        rewrite inject_Z_plus in Hfuel.
        change (inject_Z 1) with 1%Q in Hfuel. lra.
Qed.

(** With a positive finite step duration, a playable sequencer and finite
    times, [Update] returns. *)
Lemma Update_returns this a b dt :
  playable this ->
  fAccumulate this = Fin a -> fBeatTime this = Fin b -> (0 < b)%Q ->
  exists fuel k this', Update fuel this (Fin dt) = Returns (k, this').
Proof.
  intros Hp Ha Hb Hpos.
  set (x := ((a + dt) / b)%Q).
  set (fuel := Z.to_nat (Qceiling x)).
  destruct (Update_loop_returns fuel
              (set_step this (Fin (a + dt)) (nCurrentBeat this) [])
              (a + dt)%Q b) as [this' E]; try assumption; try reflexivity.
  - pose proof (Qle_ceiling x) as Hc.
    assert (Hz : (Qceiling x <= Z.of_nat fuel)%Z) by (subst fuel; lia).
    rewrite Zle_Qle in Hz.
    assert (Hx : (a + dt == x * b)%Q) by (subst x; field; lra).
    rewrite Hx. set (n := inject_Z (Z.of_nat fuel)) in *. nra.
  - exists fuel. unfold Update. rewrite Ha. cbn [F.add]. rewrite E. eauto.
Qed.

(** C10. Every note descriptor that [Update] appends has id 64, is active,
    has both timestamps equal to 0.0, and refers to the instrument of the
    channel whose pattern triggered it at the step being played: a call
    that returns has played some number k of steps, its output list is, for
    each of these steps in order, one such note per channel whose pattern
    has the marker at that step, in channel order, and the returned count
    is the length of the list (for a sequencer whose channel count fits the
    [int] index of the loop, and whatever the elapsed time passed in).  The
    emitted note carries no onset time of its own. *)
Theorem Update_note_descriptors fuel this fElapsedTime n this' :
  Z.of_nat (List.length (vecChannel this)) < 2 ^ 31 ->
  Update fuel this fElapsedTime = Returns (n, this') ->
  exists k : nat,
    vecNotes this'
    = run_notes (vecChannel this) (nTotalBeats this) (nCurrentBeat this) k
    /\ nCurrentBeat this'
       = run_beat (nTotalBeats this) (nCurrentBeat this) k
    /\ Forall (fun nt =>
                 id nt = 64 /\ active nt = true
                 /\ on nt = Fin 0.0 /\ off nt = Fin 0.0
                 /\ exists v (j : nat),
                      (j < k)%nat
                      /\ In v (vecChannel this)
                      /\ wstring_at (sBeat v)
                           (run_beat (nTotalBeats this) (nCurrentBeat this)
                                     (S j))
                         = Some "X"%char
                      /\ channel nt = instrument v)
              (vecNotes this')
    /\ n = wrap32 (Z.of_nat (List.length (vecNotes this'))).
Proof.
  intros Hlen H. unfold Update in H.
  match type of H with
  | match ?u with _ => _ end = _ => destruct u as [s| |] eqn:El
  end; try discriminate.
  injection H as <- <-.
  apply Update_loop_trace in El; [|exact Hlen].
  cbn [set_step vecChannel vecNotes nTotalBeats nCurrentBeat app] in El.
  destruct El as (k & Hcur & Hnotes & _).
  exists k. split; [exact Hnotes|]. split; [exact Hcur|].
  split; [|reflexivity].
  rewrite Hnotes. apply run_notes_triggered.
Qed.

Lemma scenario_bar :
  Update 16 scenario_sequencer (Fin 2.0) = Returns (1, scenario_after_bar).
Proof. vm_compute. reflexivity. Qed.

Lemma scenario_two_4_steps :
  Update 4 scenario_two_channels (Fin 0.5)
  = Returns (1, scenario_two_after_4).
Proof. vm_compute. reflexivity. Qed.

Lemma Update_note_descriptors_witness :
  Z.of_nat (List.length (vecChannel scenario_two_channels)) < 2 ^ 31
  /\ Update 4 scenario_two_channels (Fin 0.5)
     = Returns (1, scenario_two_after_4)
  /\ exists k : nat,
       vecNotes scenario_two_after_4
       = run_notes (vecChannel scenario_two_channels)
                   (nTotalBeats scenario_two_channels)
                   (nCurrentBeat scenario_two_channels) k
       /\ nCurrentBeat scenario_two_after_4
          = run_beat (nTotalBeats scenario_two_channels)
                     (nCurrentBeat scenario_two_channels) k
       /\ Forall (fun nt =>
                    id nt = 64 /\ active nt = true
                    /\ on nt = Fin 0.0 /\ off nt = Fin 0.0
                    /\ exists v (j : nat),
                         (j < k)%nat
                         /\ In v (vecChannel scenario_two_channels)
                         /\ wstring_at (sBeat v)
                              (run_beat (nTotalBeats scenario_two_channels)
                                        (nCurrentBeat scenario_two_channels)
                                        (S j))
                            = Some "X"%char
                         /\ channel nt = instrument v)
                 (vecNotes scenario_two_after_4)
       /\ 1 = wrap32 (Z.of_nat (List.length (vecNotes scenario_two_after_4))).
Proof.
  split; [reflexivity|]. split; [exact scenario_two_4_steps|].
  apply (Update_note_descriptors 4 scenario_two_channels (Fin 0.5) 1
           scenario_two_after_4); [reflexivity | exact scenario_two_4_steps].
Defined.

(** C4, as it holds of the code.  [AddInstrument] checks nothing: it
    appends the channel with an empty pattern, whatever the grid, and the
    caller assigns the pattern afterwards.  [Update] reads no pattern out
    of bounds, over any sequence of calls and any number of loop
    iterations, provided that every pattern has at least [nTotalBeats]
    characters (in particular exactly beats x subBeats of them) and the
    step counter is where the constructor or an earlier [Update] left it. *)
Theorem playback_in_bounds :
  (forall this inst,
      vecChannel (AddInstrument this inst)
      = vecChannel this ++ [{| instrument := inst; sBeat := EmptyString |}])
  /\ (forall this fuel dts,
        playable this -> Updates fuel this dts <> OutOfBounds)
  /\ (forall this fuel dt k this',
        playable this -> Update fuel this dt = Returns (k, this') ->
        playable this').
Proof.
  split; [|split].
  - reflexivity.
  - intros this fuel dts Hp. apply Updates_in_bounds. exact Hp.
  - intros this fuel dt k this' Hp H.
    exact (proj2 (Update_in_bounds fuel this dt Hp) k this' H).
Qed.

Lemma scenario_playable : playable scenario_sequencer.
Proof.
  unfold playable. cbn.
  split; [unfold int_range; cbn; lia|].
  split; [lia|]. split; [left; reflexivity|]. split; [reflexivity|].
  constructor; [cbn; lia | constructor].
Qed.

Lemma playback_in_bounds_witness :
  playable scenario_sequencer
  /\ Updates 8 scenario_sequencer [Fin 0.125; Fin 1.0; Fin 0.3]
     <> OutOfBounds.
Proof.
  split; [exact scenario_playable|].
  apply (proj1 (proj2 playback_in_bounds)). exact scenario_playable.
Defined.

(** C4, as stated, fails: the channel [AddInstrument] registers on the
    default 4 x 4 grid has a pattern of length 0, not 16; it is neither
    rejected nor padded, and the first step of playback reads position 1
    of that empty pattern.  A pattern of 4 characters is read out of
    bounds at step 5. *)
Lemma unvalidated_pattern_read_out_of_bounds :
  let this := AddInstrument sequencer_default (Some instrument_drumkick) in
  nTotalBeats this = 16
  /\ vecChannel this
     = [{| instrument := Some instrument_drumkick; sBeat := EmptyString |}]
  /\ Update 1 this (Fin 0.125) = OutOfBounds
  /\ Updates 1 (set_sBeat this 0 "X...") (repeat (Fin 0.125) 5)
     = OutOfBounds.
Proof. repeat split; vm_compute; reflexivity. Qed.

Lemma scenario_first_step :
  Update 1 scenario_sequencer (Fin 0.125) = Returns (0, scenario_after_step).
Proof. vm_compute. reflexivity. Qed.

Lemma scenario_16_steps :
  Updates 1 scenario_sequencer (repeat (Fin 0.125) 16)
  = Returns (repeat 0 15 ++ [1], scenario_after_16).
Proof. vm_compute. reflexivity. Qed.

(** C1, as it holds of the code.  The scenario sequencer has a step
    duration of 0.125 s and starts at step 0 with an empty accumulator.
    [Update] advances the step before it looks at the patterns, so the
    first [Update(0.125)] moves to step 1 and returns 0 notes; calls 2 to
    15 return 0 notes as well; the 16th call wraps the step back to 0 and
    returns exactly 1 note, the first trigger of pattern position 0. *)
Theorem sequencer_scenario (fuel : nat) :
  (exists q, fBeatTime scenario_sequencer = Fin q /\ (q == 0.125)%Q)
  /\ nCurrentBeat scenario_sequencer = 0
  /\ fAccumulate scenario_sequencer = F.of_int 0
  /\ (exists this1,
        Update (S fuel) scenario_sequencer (Fin 0.125) = Returns (0, this1)
        /\ nCurrentBeat this1 = 1 /\ vecNotes this1 = [])
  /\ (exists this16,
        Updates (S fuel) scenario_sequencer (repeat (Fin 0.125) 16)
        = Returns (repeat 0 15 ++ [1], this16)
        /\ nCurrentBeat this16 = 0 /\ vecNotes this16 = [scenario_note]).
Proof.
  split; [eexists; split; [reflexivity|reflexivity]|].
  split; [reflexivity|]. split; [reflexivity|]. split.
  - exists scenario_after_step. split; [|split; vm_compute; reflexivity].
    apply (Update_more_fuel 1 _ _ _ fuel scenario_first_step).
  - exists scenario_after_16. split; [|split; vm_compute; reflexivity].
    apply (Updates_more_fuel 1 fuel _ _ _ scenario_16_steps).
Qed.

(** C1, as stated, fails: no run of the first [Update(0.125)] returns one
    triggered note. *)
Lemma first_update_triggers_nothing :
  ~ exists fuel this1,
      Update fuel scenario_sequencer (Fin 0.125) = Returns (1, this1).
Proof.
  intros (fuel & this1 & H). destruct fuel as [|fuel].
  - vm_compute in H. discriminate.
  - pose proof (Update_more_fuel 1 _ _ _ fuel scenario_first_step) as E.
    cbn [Nat.add] in E. rewrite E in H. discriminate.
Qed.

(* ================================================================== *)
(** * Further properties of the code *)

Local Open Scope Q_scope.

(* ------------------------------------------------------------------ *)
(** ** The envelope, phase by phase *)



(** X2. A zero attack time, as the Drum Snare and the Harmonica have it,
    makes a sounding note's amplitude NaN at the one instant
    [time = onTime], and nowhere else: before the onset the result is 0,
    after it a finite value in [0,1]. *)
Theorem zero_attack_onset a d s st (R : FTYPE) t on off :
  a == 0 -> 0 <= d -> 0 <= s <= 1 -> 0 < st <= 1 -> off < on ->
  let e := {| dAttackTime := Fin a; dDecayTime := Fin d;
              dSustainAmplitude := Fin s; dReleaseTime := R;
              dStartAmplitude := Fin st |} in
  (t == on -> amplitude e (Fin t) (Fin on) (Fin off) = NaN)
  /\ (t < on -> amplitude e (Fin t) (Fin on) (Fin off) = Fin 0.0)
  /\ (on < t ->
      exists v, amplitude e (Fin t) (Fin on) (Fin off) = Fin v
                /\ 0 <= v <= 1).
Proof.
  intros Ha Hd Hs Hst Hoo e.
  assert (Ea : Qeq_bool a 0 = true) by (apply Qeq_bool_iff; exact Ha).
  assert (Eoo : Qle_bool on off = false).
  { destruct (Qle_bool on off) eqn:E; [qbool; lra|reflexivity]. }
  split; [|split].
  - intros Ht. subst e. cbn [amplitude envelope_adsr_is_envelope].
    unfold envelope_adsr_amplitude.
    cbn [dAttackTime dDecayTime dSustainAmplitude dReleaseTime
         dStartAmplitude F.sub F.add].
    rewrite ?gtb_Fin, ?leb_Fin, Eoo. cbn [negb]. unfold F.div. rewrite Ea.
    assert (E1 : Qle_bool (t - on) a = true) by (apply Qle_bool_iff; lra).
    assert (E2 : Qle_bool (t - on) (a + d) = true)
      by (apply Qle_bool_iff; lra).
    assert (E3 : (t - on ?= 0) = Eq) by (apply (proj1 (Qeq_alt _ _)); lra).
    rewrite E1, E2, E3. reflexivity.
  - intros Ht. subst e. cbn [amplitude envelope_adsr_is_envelope].
    unfold envelope_adsr_amplitude.
    cbn [dAttackTime dDecayTime dSustainAmplitude dReleaseTime
         dStartAmplitude F.sub F.add].
    rewrite ?gtb_Fin, ?leb_Fin, Eoo. cbn [negb]. unfold F.div. rewrite Ea.
    assert (E1 : Qle_bool (t - on) a = true) by (apply Qle_bool_iff; lra).
    assert (E2 : Qle_bool (t - on) (a + d) = true)
      by (apply Qle_bool_iff; lra).
    assert (E3 : (t - on ?= 0) = Lt) by (apply (proj1 (Qlt_alt _ _)); lra).
    assert (E4 : (st ?= 0) = Gt) by (apply (proj1 (Qgt_alt _ _)); lra).
    rewrite E1, E2, E3. cbn [negb andb F.inf_of_sign F.mul F.sign F.sign_mul].
    rewrite E4. reflexivity.
  - intros Ht. subst e. eexists. split.
    + apply amplitude_sounding; try lra.
    + apply snap_range. apply adsr_level_past_attack; lra.
Qed.

Lemma zero_attack_onset_witness :
  0.00 == 0 /\ 0 <= 1.0 /\ 0 <= 0.95 <= 1 /\ 0 < 1.0 <= 1 /\ 0 < 1
  /\ 1 == 1
  /\ amplitude (env instrument_harmonica) (Fin 1) (Fin 1) (Fin 0) = NaN.
Proof.
  assert (H1 : 0.00 == 0) by reflexivity.
  assert (H2 : 0 <= 1.0) by discriminate.
  assert (H3 : 0 <= 0.95 <= 1) by (split; discriminate).
  assert (H4 : 0 < 1.0 <= 1) by (split; [reflexivity|discriminate]).
  assert (H5 : 0 < 1) by reflexivity.
  assert (H6 : 1 == 1) by reflexivity.
  repeat (split; [assumption|]).
  exact (proj1 (zero_attack_onset 0.00 1.0 0.95 1.0 (Fin 0.1) 1 1 0
                  H1 H2 H3 H4 H5) H6).
Defined.

(** X3. The release ramp.  For a positive attack time, a decay time
    that is zero or not below a thousandth of it, a positive release time
    and amplitudes in [0,1], a released note ([on <= off], all times within
    1e300) starts its release at the guarded level it had reached at
    [offTime], never rises as time goes on from [offTime], and is exactly 0
    from [offTime + releaseTime] on, for as long as a million release
    times. *)
Theorem release_ramp a d s r st on off :
  0 < a <= far -> 0 <= d <= far -> d == 0 \/ a <= 1000 * d -> 0 < r ->
  0 <= s <= 1 -> 0 <= st <= 1 -> on <= off -> off - on <= far ->
  (forall t, t == off ->
     exists v, amplitude (adsr a d s r st) (Fin t) (Fin on) (Fin off) = Fin v
               /\ v == snap (adsr_level a d s st (off - on)))
  /\ (forall t1 t2, off <= t1 -> t1 <= t2 ->
        t2 - off <= far -> t2 - off <= 1000000 * r ->
        exists v1 v2,
          amplitude (adsr a d s r st) (Fin t1) (Fin on) (Fin off) = Fin v1
          /\ amplitude (adsr a d s r st) (Fin t2) (Fin on) (Fin off) = Fin v2
          /\ v2 <= v1)
  /\ (forall t, off + r <= t ->
        t - off <= far -> t - off <= 1000000 * r ->
        amplitude (adsr a d s r st) (Fin t) (Fin on) (Fin off) = Fin 0.0).
Proof.
  intros [Ha _] [Hd _] _ Hr Hs Hst Hoo _.
  assert (Hl : 0 <= off - on) by lra.
  pose proof (adsr_level_ge_0 a d s st (off - on) Ha Hd Hs Hst Hl) as L.
  set (ra := adsr_level a d s st (off - on)) in *.
  split; [|split].
  - intros t Ht. eexists. split; [apply amplitude_Fin; assumption|].
    apply snap_comp. rewrite adsr_raw_release by assumption. fold ra.
    assert (Z : (t - off) / r == 0).
    { assert (E : t - off == 0) by lra. rewrite E. field. lra. }
    rewrite Z. ring.
  - intros t1 t2 H1 H2 _ _. eexists. eexists.
    split; [apply amplitude_Fin; assumption|].
    split; [apply amplitude_Fin; assumption|].
    apply snap_mono. rewrite !adsr_raw_release by assumption. fold ra.
    assert (Hk : (t1 - off) / r <= (t2 - off) / r).
    { apply Qle_shift_div_l; [assumption|].
      assert (E : (t1 - off) / r * r == t1 - off) by (field; lra).
      rewrite E. lra. }
    set (k1 := (t1 - off) / r) in *. set (k2 := (t2 - off) / r) in *. nra.
  - intros t Ht _ _. apply amplitude_snapped; try assumption.
    rewrite adsr_raw_release by assumption. fold ra.
    assert (Hk : 1 <= (t - off) / r) by (apply Qle_shift_div_l; lra).
    set (k := (t - off) / r) in *. nra.
Qed.

Lemma release_ramp_witness :
  0 < 0.01 <= far /\ 0 <= 1.0 <= far /\ (1.0 == 0 \/ 0.01 <= 1000 * 1.0)
  /\ 0 < 1.0 /\ 0 <= 0.0 <= 1 /\ 0 <= 1.0 <= 1
  /\ 0 <= 1 /\ 1 - 0 <= far
  /\ 1 + 1.0 <= 2 /\ 2 - 1 <= far /\ 2 - 1 <= 1000000 * 1.0
  /\ amplitude (env instrument_bell) (Fin 2) (Fin 0) (Fin 1) = Fin 0.0.
Proof.
  assert (H1 : 0 < 0.01 <= far) by (split; [reflexivity|discriminate]).
  assert (H2 : 0 <= 1.0 <= far) by (split; discriminate).
  assert (H2' : 1.0 == 0 \/ 0.01 <= 1000 * 1.0) by (right; discriminate).
  assert (H3 : 0 < 1.0) by reflexivity.
  assert (H4 : 0 <= 0.0 <= 1) by (split; discriminate).
  assert (H5 : 0 <= 1.0 <= 1) by (split; discriminate).
  assert (H6 : 0 <= 1) by discriminate.
  assert (H6' : 1 - 0 <= far) by discriminate.
  assert (H7 : 1 + 1.0 <= 2) by discriminate.
  assert (H8 : 2 - 1 <= far) by discriminate.
  assert (H9 : 2 - 1 <= 1000000 * 1.0) by discriminate.
  repeat (split; [assumption|]).
  exact (proj2 (proj2 (release_ramp 0.01 1.0 0.0 1.0 1.0 0 1
                         H1 H2 H2' H3 H4 H5 H6 H6')) 2 H7 H8 H9).
Defined.



(* ------------------------------------------------------------------ *)
(** ** The pitch mapper *)

(** X5. [scale] is positive and strictly increasing in the note id, for
    note ids between -12000 and 12000 (about 1000 octaves either side of
    id 0, where the frequency is neither subnormal nor infinite in
    [double]), and the tuning id makes no difference: every tuning is the
    default one. *)
Theorem scale_increasing nNoteID nNoteID' nScaleID nScaleID' :
  (-12000 <= nNoteID)%Z -> (nNoteID < nNoteID')%Z ->
  (nNoteID' <= 12000)%Z ->
  exists f f',
    scale nNoteID nScaleID = Fin f /\ scale nNoteID' nScaleID' = Fin f'
    /\ 0 < f /\ f < f'.
Proof.
  intros _ H _. exists (8 * SEMITONE ^ nNoteID), (8 * SEMITONE ^ nNoteID').
  split; [apply scale_Fin|]. split; [apply scale_Fin|].
  assert (Hp : 0 < SEMITONE ^ nNoteID) by (apply Qpower_0_lt; reflexivity).
  assert (Hlt : SEMITONE ^ nNoteID < SEMITONE ^ nNoteID')
    by (apply Qpower_lt_compat_l; [exact H | reflexivity]).
  split; lra.
Qed.

Lemma scale_increasing_witness :
  (-12000 <= 60)%Z /\ (60 < 72)%Z /\ (72 <= 12000)%Z
  /\ exists f f',
       scale 60 0 = Fin f /\ scale 72 7 = Fin f' /\ 0 < f /\ f < f'.
Proof.
  assert (H0 : (-12000 <= 60)%Z) by discriminate.
  assert (H : (60 < 72)%Z) by reflexivity.
  assert (H1 : (72 <= 12000)%Z) by discriminate.
  split; [exact H0|]. split; [exact H|]. split; [exact H1|].
  exact (scale_increasing 60 72 0 7 H0 H H1).
Defined.

(* ------------------------------------------------------------------ *)
(** ** The oscillator and the instruments, further *)

Lemma inject_Z_pred z : inject_Z (z - 1) == inject_Z z - 1.
Proof.
  unfold Z.sub. rewrite inject_Z_plus. reflexivity.
Qed.

Lemma clamp_unit_range q : -1 <= clamp_unit q <= 1.
Proof.
  unfold clamp_unit.
  destruct (Qle_bool q (-1)) eqn:E1; [split; discriminate|].
  destruct (Qle_bool 1 q) eqn:E2; [split; discriminate|].
  qbool. lra.
Qed.

Lemma clamped_sin_bounded : @sin_bounded clamped_platform.
Proof.
  intros q. cbn [sin clamped_platform]. unfold clamped_sin. cbn [poly_sin].
  eexists. split; [reflexivity|]. apply clamp_unit_range.
Qed.

Section SoundExtra.
Context `{P : Platform}.

(** X6. The noise oscillator ignores time, frequency, vibrato and shape:
    it draws one number from [rand] and maps it linearly, so that with
    [rand] in [0, RAND_MAX] the value lies in [-1, 1]. *)
Theorem noise_range dTime dHertz dLFOHertz dLFOAmplitude dCustom g :
  (0 < RAND_MAX)%Z ->
  (0 <= fst (rand g) <= RAND_MAX)%Z ->
  exists v,
    osc dTime dHertz OSC_NOISE dLFOHertz dLFOAmplitude dCustom g
    = Some (Fin v, snd (rand g))
    /\ -1 <= v <= 1
    /\ v == 2 * (inject_Z (fst (rand g)) / inject_Z RAND_MAX) - 1.
Proof.
  intros Hmax Hr. unfold osc, bind, call_rand, ret.
  destruct (rand g) as [r g'] eqn:E. cbn [fst snd] in *.
  unfold F.of_int.
  assert (HM : 0 < inject_Z RAND_MAX).
  { change 0 with (inject_Z 0). rewrite <- Zlt_Qlt. exact Hmax. }
  rewrite div_Fin by lra. cbn [F.mul F.sub].
  eexists. split; [reflexivity|]. split; [|field; lra].
  assert (H0 : 0 <= inject_Z r).
  { change 0 with (inject_Z 0). rewrite <- Zle_Qle. lia. }
  assert (H1 : inject_Z r <= inject_Z RAND_MAX)
    by (rewrite <- Zle_Qle; lia).
  assert (Hu : inject_Z r / inject_Z RAND_MAX <= 1)
    by (apply Qle_shift_div_r; lra).
  assert (Hl : 0 <= inject_Z r / inject_Z RAND_MAX)
    by (apply Qle_shift_div_l; lra).
  set (u := inject_Z r / inject_Z RAND_MAX) in *. split; lra.
Qed.

Lemma saw_ana_loop_unbounded dFreq : forall fuel q out,
  saw_ana_loop fuel dFreq PInf (Fin q) out = None.
Proof.
  induction fuel as [|fuel IH]; intros q out; cbn [saw_ana_loop];
    change (F.ltb (Fin q) PInf) with true; cbv iota.
  - reflexivity.
  - cbn [F.add]. apply IH.
Qed.

(** X7. Edge values of the analogue saw's shape parameter: with
    [dCustom <= 1], NaN or -infinity the harmonic loop does not run and the
    oscillator returns the empty sum times 2/PI; with +infinity the loop
    never ends, whatever the number of iterations allowed. *)
Theorem saw_ana_shape_edges dTime dHertz dLFOHertz dLFOAmplitude g :
  (forall c, c <= 1 ->
     osc dTime dHertz OSC_SAW_ANA dLFOHertz dLFOAmplitude (Fin c) g
     = Some ((Fin 0.0 * (Fin 2.0 / PI))%F, g))
  /\ osc dTime dHertz OSC_SAW_ANA dLFOHertz dLFOAmplitude NaN g
     = Some ((Fin 0.0 * (Fin 2.0 / PI))%F, g)
  /\ osc dTime dHertz OSC_SAW_ANA dLFOHertz dLFOAmplitude NInf g
     = Some ((Fin 0.0 * (Fin 2.0 / PI))%F, g)
  /\ (forall fuel dFreq,
        saw_ana_loop fuel dFreq PInf (Fin 1.0) (Fin 0.0) = None)
  /\ osc dTime dHertz OSC_SAW_ANA dLFOHertz dLFOAmplitude PInf g = None.
Proof.
  split; [|split; [|split; [|split]]].
  - intros c Hc. unfold osc.
    assert (E : forall fuel dFreq,
               saw_ana_loop fuel dFreq (Fin c) (Fin 1.0) (Fin 0.0)
               = Some (Fin 0.0)).
    { intros fuel dFreq. destruct fuel; cbn [saw_ana_loop];
        rewrite ltb_Fin;
        (assert (E : Qle_bool c 1.0 = true)
           by (apply Qle_bool_iff; assert (1.0 == 1) by reflexivity; lra));
        rewrite E; reflexivity. }
    rewrite E. reflexivity.
  - reflexivity.
  - reflexivity.
  - intros fuel dFreq. apply saw_ana_loop_unbounded.
  - reflexivity.
Qed.

Lemma saw_ana_loop_starved dFreq c : forall fuel q out,
  inject_Z (Z.of_nat fuel) + q < c ->
  saw_ana_loop fuel dFreq (Fin c) (Fin q) out = None.
Proof.
  induction fuel as [|fuel IH]; intros q out H; cbn [saw_ana_loop];
    rewrite ltb_Fin.
  - change (inject_Z (Z.of_nat 0)) with 0 in H.
    destruct (Qle_bool c q) eqn:E; qbool; [exfalso; lra|reflexivity].
  - rewrite Nat2Z.inj_succ in H. unfold Z.succ in H.
    rewrite inject_Z_plus in H. change (inject_Z 1) with 1 in H.
    assert (Hn : 0 <= inject_Z (Z.of_nat fuel)).
    { change 0 with (inject_Z 0). rewrite <- Zle_Qle. lia. }
    destruct (Qle_bool c q) eqn:E; qbool; [exfalso; lra|]. cbn [negb F.add].
    apply IH. lra.
Qed.

(** X8. The analogue saw sums exactly ceil(dCustom) - 1 harmonics: for a
    shape parameter up to 2^53 (beyond which the [double] counter [n++]
    stops counting), its loop returns within a given number of iterations
    if and only if that number is at least ceil(dCustom) - 1 (49 for the
    default shape 50, 99 for the Harmonica's 100). *)
Theorem saw_ana_harmonics dFreq c fuel :
  c <= inject_Z (2 ^ 53) ->
  (exists r, saw_ana_loop fuel dFreq (Fin c) (Fin 1.0) (Fin 0.0) = Some r)
  <-> (Qceiling c - 1 <= Z.of_nat fuel)%Z.
Proof.
  intros _.
  assert (H1 : 1.0 == 1) by reflexivity.
  pose proof (Qle_ceiling c) as Hc. pose proof (Qceiling_lt c) as Hc'.
  rewrite inject_Z_pred in Hc'.
  split.
  - intros [r Hr].
    destruct (Z_le_gt_dec (Qceiling c - 1) (Z.of_nat fuel)) as [Hle|Hgt];
      [exact Hle|exfalso].
    rewrite saw_ana_loop_starved in Hr; [discriminate|].
    assert (G : (Z.of_nat fuel + 1 <= Qceiling c - 1)%Z) by lia.
    rewrite Zle_Qle, inject_Z_plus, inject_Z_pred in G.
    change (inject_Z 1) with 1 in G. lra.
  - intros Hle. apply saw_ana_loop_stops.
    rewrite Zle_Qle, inject_Z_pred in Hle. lra.
Qed.

Lemma osc_state dTime dHertz t lfo amp c g :
  exists v, osc dTime dHertz t lfo amp (Fin c) g = Some (v, draws t g).
Proof.
  destruct (osc_returns dTime dHertz t lfo amp c g) as (v & g' & E).
  exists v. rewrite E. f_equal. f_equal.
  unfold osc in E. destruct t; cbn [draws];
    try (unfold ret in E; congruence).
  - destruct (saw_ana_loop _ _ _ _ _); unfold ret, diverge in E; congruence.
  - unfold bind, call_rand, ret in E. destruct (rand g). cbn. congruence.
Qed.

Lemma bind_osc_state {B} dTime dHertz t lfo amp c (k : FTYPE -> M B) g :
  exists v,
    bind (osc dTime dHertz t lfo amp (Fin c)) k g = k v (draws t g).
Proof.
  destruct (osc_state dTime dHertz t lfo amp c g) as (v & E).
  exists v. unfold bind. rewrite E. reflexivity.
Qed.

Ltac run_osc_state :=
  match goal with
  | |- context [bind (osc ?a ?b ?t ?l ?m (Fin ?c)) ?k ?g] =>
      let v := fresh "v" in
      let E := fresh "E" in
      destruct (bind_osc_state a b t l m c k g) as (v & E);
      rewrite E; clear E; cbv beta; cbn [draws]
  end.

(** X9. Every instrument's [sound] returns, and its use of the shared
    random generator is fixed by the instrument: Bell and 8-bit Bell leave
    the generator untouched, Harmonica and the three drums draw exactly one
    number per sample. *)
Theorem sound_random_draws this dTime n b g :
  exists v b',
    sound this dTime n b g
    = Some (v, b',
            match vptr this with
            | class_bell | class_bell8 => g
            | _ => snd (rand g)
            end).
Proof.
  unfold sound. destruct (vptr this).
  - unfold instrument_bell_sound, osc5, osc2.
    repeat run_osc_state. unfold ret. eauto.
  - unfold instrument_bell8_sound, osc5, osc2.
    repeat run_osc_state. unfold ret. eauto.
  - unfold instrument_harmonica_sound, osc5, osc3, F.of_int.
    repeat run_osc_state. unfold ret. eauto.
  - unfold instrument_drumkick_sound, osc5, osc3, F.of_int.
    repeat run_osc_state. unfold ret. eauto.
  - unfold instrument_drumsnare_sound, osc5, osc3, F.of_int.
    repeat run_osc_state. unfold ret. eauto.
  - unfold instrument_drumhihat_sound, osc5, osc3, F.of_int.
    repeat run_osc_state. unfold ret. eauto.
Qed.

Lemma instrument_policy this : envelope_driven this \/ timeout_driven this.
Proof.
  unfold envelope_driven, timeout_driven. destruct (vptr this); auto 7.
Qed.

(** X10. No instrument ever clears the finished flag: called with
    [bNoteFinished] already true, [sound] returns with it true, for every
    instrument object, time and note. *)
Theorem sound_keeps_finished this dTime n g :
  exists v g', sound this dTime n true g = Some (v, true, g').
Proof.
  destruct (instrument_policy this) as [H|H].
  - destruct (sound_envelope_driven this dTime n true g H) as (d & g' & E).
    rewrite E. destruct (_ <=? _)%F; eauto.
  - destruct (sound_timeout_driven this dTime n true g H) as (d & g' & E).
    rewrite E. destruct (_ && _)%bool; eauto.
Qed.

(** X11. The drums finish by timeout and by nothing else: for the Drum
    Kick (1.5), the Drum Snare (1.0) and the Drum Hi-Hat (1.0) at finite
    times, [sound] raises the flag if [maxLifetime <= time - on], and
    leaves it as passed in if [time - on] is below [maxLifetime] by more
    than one part in 2^50 (closer than that, the rounding of the difference
    decides), whatever the envelope amplitude. *)
Theorem timeout_driven_exact this L t on0 n b g :
  In (this, L) [(instrument_drumkick, 1.5); (instrument_drumsnare, 1.0);
                (instrument_drumhihat, 1.0)] ->
  on n = Fin on0 ->
  (L <= t - on0 ->
   exists v g', sound this (Fin t) n b g = Some (v, true, g'))
  /\ (t - on0 <= L - L / inject_Z (2 ^ 50) ->
      exists v g', sound this (Fin t) n b g = Some (v, b, g')).
Proof.
  intros Hin Hon.
  assert (H : fMaxLifeTime this = Fin L
              /\ (fMaxLifeTime this >? Fin 0.0)%F = true
              /\ 0 < L
              /\ timeout_driven this).
  { unfold timeout_driven.
    destruct Hin as [E|[E|[E|[]]]]; injection E as <- <-;
      cbn [vptr fMaxLifeTime]; repeat split; auto. }
  destruct H as (HL & Hpos & HL0 & Hdrum).
  destruct (sound_timeout_driven this (Fin t) n b g Hdrum)
    as (dSound & g' & E).
  rewrite E, Hpos, HL, Hon. cbn [andb F.sub]. rewrite geb_Fin.
  split.
  - intros Hge. apply Qle_bool_iff in Hge. rewrite Hge. eauto.
  - intros Hlt.
    assert (Hm : 0 < L / inject_Z (2 ^ 50)).
    { apply Qlt_shift_div_l; [reflexivity|]. lra. }
    destruct (Qle_bool L (t - on0)) eqn:C; [|eauto].
    apply Qle_bool_iff in C. lra.
Qed.

(** X12. A maximum lifetime that is not positive switches the timeout
    off: a drum object whose [fMaxLifeTime] is <= 0 never changes the
    flag. *)
Theorem unbounded_lifetime_never_times_out this L dTime n b g :
  timeout_driven this -> fMaxLifeTime this = Fin L -> L <= 0 ->
  exists v g', sound this dTime n b g = Some (v, b, g').
Proof.
  intros Hdrum HL Hneg.
  destruct (sound_timeout_driven this dTime n b g Hdrum)
    as (dSound & g' & E).
  rewrite E, HL, gtb_Fin.
  assert (E0 : Qle_bool L 0.0 = true)
    by (apply Qle_bool_iff; assert (0.0 == 0) by reflexivity; lra).
  rewrite E0. cbn [negb andb]. eauto.
Qed.

(** X13. The Bell's sample is bounded by its mix weights: with PI
    between 3 and 4 and a [sin] into [-1, 1], for a note id within 1000
    semitones of 0 that is sounding or asked at or after its release, up
    to a million seconds after its onset, the sample is finite, the
    generator is untouched, and |sample| <= 1.75 * amplitude <= 1.75; so a
    finished envelope means silence, and the full mix can exceed 1. *)
Theorem bell_sample_bound p t on0 off0 n b g :
  PI = Fin p -> 3 <= p <= 4 -> sin_bounded ->
  (-1000 <= id n <= 1000)%Z ->
  on n = Fin on0 -> off n = Fin off0 ->
  on0 <= t -> t - on0 <= 1000000 ->
  off0 < on0 \/ off0 <= t ->
  exists v amp b',
    sound instrument_bell (Fin t) n b g = Some (Fin v, b', g)
    /\ amplitude (env instrument_bell) (Fin t) (Fin on0) (Fin off0) = Fin amp
    /\ 0 <= amp <= 1
    /\ - (1.75 * amp) <= v <= 1.75 * amp.
Proof.
  intros HPI _ Hsin _ Hon Hoff _ _ Hph.
  destruct (amplitude_unit_range 0.01 1.0 0.0 1.0 1.0 t on0 off0)
    as (amp & Eamp & Hamp);
    try reflexivity; try discriminate; try (split; discriminate);
    try assumption.
  change (adsr 0.01 1.0 0.0 1.0 1.0) with (env instrument_bell) in Eamp.
  unfold sound. cbn [vptr instrument_bell].
  unfold instrument_bell_sound, osc5, osc2, osc, bind, ret, synth_env, w,
    scale1.
  rewrite Hon, Hoff, Eamp, HPI, !scale_Fin.
  cbn [F.mul F.sub F.add].
  repeat match goal with
  | |- context [sin (Fin ?q)] =>
      let y := fresh "y" in
      let Hy := fresh "Hy" in
      let Ey := fresh "Ey" in
      destruct (Hsin q) as (y & Ey & Hy); rewrite Ey; clear Ey;
      cbn [F.mul F.sub F.add]
  end.
  cbn [dVolume instrument_bell F.mul].
  eexists. exists amp. eexists. split; [reflexivity|].
  split; [reflexivity|]. split; [exact Hamp|].
  split; nra.
Qed.

End SoundExtra.

Lemma noise_range_witness :
  (0 < @RAND_MAX test_platform)%Z
  /\ (0 <= fst (@rand test_platform 1%Z) <= @RAND_MAX test_platform)%Z
  /\ exists v,
       @osc test_platform (Fin 0) (Fin 0) OSC_NOISE (Fin 0.0) (Fin 0.0)
            (Fin 50.0) 1%Z
       = Some (Fin v, snd (@rand test_platform 1%Z))
       /\ -1 <= v <= 1
       /\ v == 2 * (inject_Z (fst (@rand test_platform 1%Z))
                    / inject_Z (@RAND_MAX test_platform)) - 1.
Proof.
  assert (H1 : (0 < @RAND_MAX test_platform)%Z) by reflexivity.
  assert (H2 : (0 <= fst (@rand test_platform 1%Z)
                <= @RAND_MAX test_platform)%Z)
    by (split; discriminate).
  split; [exact H1|]. split; [exact H2|].
  exact (@noise_range test_platform (Fin 0) (Fin 0) (Fin 0.0) (Fin 0.0)
           (Fin 50.0) 1%Z H1 H2).
Defined.

Lemma saw_ana_shape_edges_witness :
  1 <= 1
  /\ @osc test_platform (Fin 0.5) (Fin 440) OSC_SAW_ANA (Fin 5.0) (Fin 0.001)
          (Fin 1) 1%Z
     = Some ((Fin 0.0 * (Fin 2.0 / @PI test_platform))%F, 1%Z).
Proof.
  assert (H : 1 <= 1) by discriminate.
  split; [exact H|].
  exact (proj1 (@saw_ana_shape_edges test_platform (Fin 0.5) (Fin 440)
                  (Fin 5.0) (Fin 0.001) 1%Z) 1 H).
Defined.

Lemma saw_ana_harmonics_witness :
  50.0 <= inject_Z (2 ^ 53)
  /\ (Qceiling 50.0 - 1 <= Z.of_nat 49)%Z
  /\ exists r,
       @saw_ana_loop test_platform 49 (Fin 1) (Fin 50.0) (Fin 1.0) (Fin 0.0)
       = Some r.
Proof.
  assert (H0 : 50.0 <= inject_Z (2 ^ 53)) by discriminate.
  assert (H : (Qceiling 50.0 - 1 <= Z.of_nat 49)%Z) by discriminate.
  split; [exact H0|]. split; [exact H|].
  exact (proj2 (@saw_ana_harmonics test_platform (Fin 1) 50.0 49 H0) H).
Defined.

Lemma timeout_driven_exact_witness :
  In (instrument_drumkick, 1.5)
     [(instrument_drumkick, 1.5); (instrument_drumsnare, 1.0);
      (instrument_drumhihat, 1.0)]
  /\ on note_new = Fin 0.0
  /\ 1 - 0.0 <= 1.5 - 1.5 / inject_Z (2 ^ 50)
  /\ exists v g',
       @sound test_platform instrument_drumkick (Fin 1) note_new false 1%Z
       = Some (v, false, g').
Proof.
  assert (H1 : In (instrument_drumkick, 1.5)
                  [(instrument_drumkick, 1.5); (instrument_drumsnare, 1.0);
                   (instrument_drumhihat, 1.0)]) by (left; reflexivity).
  assert (H2 : on note_new = Fin 0.0) by reflexivity.
  assert (H3 : 1 - 0.0 <= 1.5 - 1.5 / inject_Z (2 ^ 50)) by discriminate.
  split; [exact H1|]. split; [exact H2|]. split; [exact H3|].
  exact (proj2 (@timeout_driven_exact test_platform instrument_drumkick 1.5
                  1 0.0 note_new false 1%Z H1 H2) H3).
Defined.

Lemma unbounded_lifetime_never_times_out_witness :
  timeout_driven drumkick_unbounded
  /\ fMaxLifeTime drumkick_unbounded = Fin (-1.0)
  /\ -1.0 <= 0
  /\ exists v g',
       @sound test_platform drumkick_unbounded (Fin 100) note_new false 1%Z
       = Some (v, false, g').
Proof.
  assert (H1 : timeout_driven drumkick_unbounded) by (left; reflexivity).
  assert (H2 : fMaxLifeTime drumkick_unbounded = Fin (-1.0)) by reflexivity.
  assert (H3 : -1.0 <= 0) by discriminate.
  split; [exact H1|]. split; [exact H2|]. split; [exact H3|].
  exact (@unbounded_lifetime_never_times_out test_platform
           drumkick_unbounded (-1.0) (Fin 100) note_new false 1%Z H1 H2 H3).
Defined.

Lemma bell_sample_bound_witness :
  @PI clamped_platform = Fin 3.14159265358979323846
  /\ 3 <= 3.14159265358979323846 <= 4
  /\ @sin_bounded clamped_platform
  /\ (-1000 <= 64 <= 1000)%Z
  /\ 1 <= 1.5 /\ 1.5 - 1 <= 1000000
  /\ 0 < 1
  /\ exists v amp b',
       @sound clamped_platform instrument_bell (Fin 1.5)
              {| id := 64; on := Fin 1; off := Fin 0; active := true;
                 channel := Some instrument_bell |} false 1%Z
       = Some (Fin v, b', 1%Z)
       /\ amplitude (env instrument_bell) (Fin 1.5) (Fin 1) (Fin 0) = Fin amp
       /\ 0 <= amp <= 1
       /\ - (1.75 * amp) <= v <= 1.75 * amp.
Proof.
  assert (H1 : @PI clamped_platform = Fin 3.14159265358979323846)
    by reflexivity.
  assert (H2 : 3 <= 3.14159265358979323846 <= 4) by (split; discriminate).
  assert (H3 : 0 < 1) by reflexivity.
  assert (H4 : (-1000 <= 64 <= 1000)%Z) by (split; discriminate).
  assert (H5 : 1 <= 1.5) by discriminate.
  assert (H6 : 1.5 - 1 <= 1000000) by discriminate.
  split; [exact H1|]. split; [exact H2|].
  split; [exact clamped_sin_bounded|]. split; [exact H4|].
  split; [exact H5|]. split; [exact H6|]. split; [exact H3|].
  exact (@bell_sample_bound clamped_platform _ 1.5 1 0
           {| id := 64; on := Fin 1; off := Fin 0; active := true;
              channel := Some instrument_bell |} false 1%Z
           H1 H2 clamped_sin_bounded H4 eq_refl eq_refl H5 H6
           (or_introl H3)).
Defined.

(* ------------------------------------------------------------------ *)
(** ** The sequencer, step by step *)

Local Open Scope Z_scope.

Lemma run_beat_add total : forall k1 k2 cur,
  run_beat total cur (k1 + k2) = run_beat total (run_beat total cur k1) k2.
Proof.
  induction k1 as [|k1 IH]; intros k2 cur; cbn; [reflexivity|apply IH].
Qed.

Lemma run_notes_add chans total : forall k1 k2 cur,
  run_notes chans total cur (k1 + k2)
  = run_notes chans total cur k1
    ++ run_notes chans total (run_beat total cur k1) k2.
Proof.
  induction k1 as [|k1 IH]; intros k2 cur; cbn; [reflexivity|].
  rewrite IH, app_assoc. reflexivity.
Qed.

Lemma run_beat_mod total : forall k cur,
  0 <= cur < total -> total < 2 ^ 31 ->
  run_beat total cur k = (cur + Z.of_nat k) mod total.
Proof.
  induction k as [|k IH]; intros cur Hc Ht.
  - cbn [run_beat]. rewrite Z.add_0_r, Z.mod_small; lia.
  - cbn [run_beat]. unfold next_beat.
    rewrite wrap32_small by (unfold int_range; lia).
    destruct (Z.geb_spec (cur + 1) total) as [Hge|Hlt].
    + rewrite IH by lia.
      replace (cur + Z.of_nat (S k)) with (Z.of_nat k + 1 * total) by lia.
      rewrite Z.mod_add by lia. reflexivity.
    + rewrite IH by lia. f_equal. lia.
Qed.

(** The loop, exactly. *)
Lemma Update_loop_exact : forall fuel this this' a b,
  Z.of_nat (List.length (vecChannel this)) < 2 ^ 31 ->
  fAccumulate this = Fin a -> fBeatTime this = Fin b ->
  Update_loop fuel this = Returns this' ->
  exists (k : nat) a',
    fAccumulate this' = Fin a'
    /\ (a' == a - inject_Z (Z.of_nat k) * b)%Q
    /\ (a' < b)%Q
    /\ (k = O \/ (b <= a' + b)%Q)
    /\ nCurrentBeat this'
       = run_beat (nTotalBeats this) (nCurrentBeat this) k
    /\ vecNotes this'
       = vecNotes this
         ++ run_notes (vecChannel this) (nTotalBeats this)
                      (nCurrentBeat this) k
    /\ vecChannel this' = vecChannel this
    /\ nTotalBeats this' = nTotalBeats this
    /\ fBeatTime this' = fBeatTime this.
Proof.
  induction fuel as [|fuel IH]; intros this this' a b Hlen Ha Hb H;
    cbn [Update_loop] in H; rewrite Ha, Hb, geb_Fin in H;
    destruct (Qle_bool b a) eqn:E; try discriminate.
  - injection H as <-. qbool. exists O, a. cbn [run_beat run_notes].
    rewrite app_nil_r. repeat split; auto.
    change (inject_Z (Z.of_nat 0)) with 0%Q. ring.
  - match type of H with
    | match ?u with _ => _ end = _ => destruct u as [notes| |] eqn:Ec
    end; try discriminate.
    apply (Update_channels_exact _ _ _ [] 0) in Ec;
      [|reflexivity|reflexivity|assumption]. subst notes.
    cbn [F.sub] in H.
    apply (IH _ _ (a - b)%Q b) in H; try assumption; try reflexivity.
    cbn [set_step vecChannel vecNotes nTotalBeats nCurrentBeat fBeatTime] in H.
    destruct H as (k & a' & Ha' & Heq & Hlt & Hlast & Hcur & Hnotes & Hch
                   & Htot & Hbt).
    qbool. exists (S k), a'. cbn [run_beat run_notes].
    fold (next_beat (nTotalBeats this) (nCurrentBeat this)) in *.
    repeat split; auto.
    + rewrite Heq, Nat2Z.inj_succ. unfold Z.succ. rewrite inject_Z_plus.
      change (inject_Z 1) with 1%Q. ring.
    + right. destruct Hlast as [->|Hl]; [|exact Hl].
      change (inject_Z (Z.of_nat 0)) with 0%Q in Heq. lra.
    + rewrite Hnotes, app_assoc. reflexivity.
  - injection H as <-. qbool. exists O, a. cbn [run_beat run_notes].
    rewrite app_nil_r. repeat split; auto.
    change (inject_Z (Z.of_nat 0)) with 0%Q. ring.
Qed.

Lemma step_count_unique (A b a1 a2 : Q) (k1 k2 : nat) :
  (0 < b)%Q ->
  (a1 == A - inject_Z (Z.of_nat k1) * b)%Q -> (a1 < b)%Q ->
  (k1 = O \/ (b <= a1 + b)%Q) ->
  (a2 == A - inject_Z (Z.of_nat k2) * b)%Q -> (a2 < b)%Q ->
  (k2 = O \/ (b <= a2 + b)%Q) ->
  k1 = k2.
Proof.
  intros Hb E1 L1 P1 E2 L2 P2.
  destruct (Nat.lt_trichotomy k1 k2) as [H|[H|H]]; [exfalso|exact H|exfalso].
  - destruct P2 as [->|P2]; [lia|].
    assert (Hk : (inject_Z (Z.of_nat k1) + 1 <= inject_Z (Z.of_nat k2))%Q).
    { change 1%Q with (inject_Z 1). rewrite <- inject_Z_plus, <- Zle_Qle. lia. }
    set (x1 := inject_Z (Z.of_nat k1)) in *.
    set (x2 := inject_Z (Z.of_nat k2)) in *. nra.
  - destruct P1 as [->|P1]; [lia|].
    assert (Hk : (inject_Z (Z.of_nat k2) + 1 <= inject_Z (Z.of_nat k1))%Q).
    { change 1%Q with (inject_Z 1). rewrite <- inject_Z_plus, <- Zle_Qle. lia. }
    set (x1 := inject_Z (Z.of_nat k1)) in *.
    set (x2 := inject_Z (Z.of_nat k2)) in *. nra.
Qed.

Lemma step_count_floor (A b a' : Q) (k : nat) :
  (0 < b)%Q ->
  (a' == A - inject_Z (Z.of_nat k) * b)%Q -> (a' < b)%Q ->
  (k = O \/ (b <= a' + b)%Q) ->
  k = Z.to_nat (Qfloor (A / b)).
Proof.
  intros Hb E L Pk.
  assert (Hx : (A / b * b == A)%Q) by (field; lra).
  set (x := (A / b)%Q) in *.
  pose proof (Qfloor_le x) as F1. pose proof (Qlt_floor x) as F2.
  destruct Pk as [->|Pk].
  - change (inject_Z (Z.of_nat 0)) with 0%Q in E.
    assert (Hx1 : (x < 1)%Q).
    { apply Qnot_le_lt. intros C. nra. }
    assert (Hf : (inject_Z (Qfloor x) < inject_Z 1)%Q)
      by (change (inject_Z 1) with 1%Q; lra).
    rewrite <- Zlt_Qlt in Hf. lia.
  - set (z := inject_Z (Z.of_nat k)) in *.
    assert (Hlo : (z <= x)%Q).
    { apply Qnot_lt_le. intros C. nra. }
    assert (Hhi : (x < z + 1)%Q).
    { apply Qnot_le_lt. intros C. nra. }
    assert (G1 : (inject_Z (Z.of_nat k) < inject_Z (Qfloor x + 1))%Q)
      by (fold z; lra).
    assert (G2 : (inject_Z (Qfloor x) < inject_Z (Z.of_nat k + 1))%Q).
    { rewrite inject_Z_plus. change (inject_Z 1) with 1%Q. fold z. lra. }
    rewrite <- Zlt_Qlt in G1, G2. lia.
Qed.

Lemma Update_exact fuel this a b dt n this' :
  Z.of_nat (List.length (vecChannel this)) < 2 ^ 31 ->
  fAccumulate this = Fin a -> fBeatTime this = Fin b ->
  Update fuel this (Fin dt) = Returns (n, this') ->
  exists (k : nat) a',
    fAccumulate this' = Fin a'
    /\ (a' == a + dt - inject_Z (Z.of_nat k) * b)%Q
    /\ (a' < b)%Q
    /\ (k = O \/ (b <= a' + b)%Q)
    /\ nCurrentBeat this'
       = run_beat (nTotalBeats this) (nCurrentBeat this) k
    /\ vecNotes this'
       = run_notes (vecChannel this) (nTotalBeats this)
                   (nCurrentBeat this) k
    /\ n = wrap32 (Z.of_nat (List.length (vecNotes this')))
    /\ vecChannel this' = vecChannel this
    /\ nTotalBeats this' = nTotalBeats this
    /\ fBeatTime this' = fBeatTime this.
Proof.
  intros Hlen Ha Hb H. unfold Update in H. rewrite Ha in H. cbn [F.add] in H.
  match type of H with
  | match ?u with _ => _ end = _ => destruct u as [s| |] eqn:El
  end; try discriminate.
  injection H as <- <-.
  apply (Update_loop_exact _ _ _ (a + dt)%Q b) in El;
    [|exact Hlen|reflexivity|exact Hb].
  cbn [set_step vecChannel vecNotes nTotalBeats nCurrentBeat fBeatTime
       app] in El.
  destruct El as (k & a' & H1 & H2 & H3 & H4 & H5 & H6 & H7 & H8 & H9).
  exists k, a'. repeat split; assumption.
Qed.

(** The times of the scenario are on the binary grid. *)
Lemma on_grid_0 : on_grid (inject_Z 0).
Proof. exists 0. split; reflexivity. Qed.

Lemma on_grid_step : on_grid (60.0 / 120.0 / inject_Z 4).
Proof. exists 131072. split; reflexivity. Qed.

Lemma on_grid_bar : on_grid 2.0.
Proof. exists 2097152. split; reflexivity. Qed.

Lemma on_grid_eighth : on_grid 0.125.
Proof. exists 131072. split; reflexivity. Qed.

(** X14. Time accounting of [Update].  With a positive step duration b,
    an accumulator a and an elapsed time dt that are all on the binary grid
    (multiples of 2^-20 below 2^30, which [double] adds and subtracts
    without rounding), a call [Update(dt)] that returns has taken exactly
    floor((a + dt) / b) steps (none if that is negative): the accumulator
    is left at a + dt minus that many step durations, below b, and the
    step counter has advanced by that many steps, modulo [nTotalBeats]
    when it started inside the grid of steps. *)
Theorem Update_steps fuel this a b dt n this' :
  Z.of_nat (List.length (vecChannel this)) < 2 ^ 31 ->
  fAccumulate this = Fin a -> fBeatTime this = Fin b -> (0 < b)%Q ->
  on_grid a -> on_grid b -> on_grid dt ->
  Update fuel this (Fin dt) = Returns (n, this') ->
  let k := Z.to_nat (Qfloor ((a + dt) / b)) in
  (exists a',
      fAccumulate this' = Fin a'
      /\ (a' == a + dt - inject_Z (Z.of_nat k) * b)%Q
      /\ (a' < b)%Q)
  /\ nCurrentBeat this' = run_beat (nTotalBeats this) (nCurrentBeat this) k
  /\ (0 <= nCurrentBeat this < nTotalBeats this ->
      nTotalBeats this < 2 ^ 31 ->
      nCurrentBeat this'
      = (nCurrentBeat this + Z.of_nat k) mod nTotalBeats this).
Proof.
  intros Hlen Ha Hb Hpos _ _ _ H k.
  destruct (Update_exact _ _ _ _ _ _ _ Hlen Ha Hb H)
    as (k' & a' & H1 & H2 & H3 & H4 & H5 & _).
  assert (Ek : k' = k) by (apply (step_count_floor _ b a'); assumption).
  subst k'. split; [|split].
  - exists a'. auto.
  - exact H5.
  - intros Hc Ht. rewrite H5. apply run_beat_mod; assumption.
Qed.

Lemma scenario_beat_time :
  fBeatTime scenario_sequencer = Fin (60.0 / 120.0 / inject_Z 4)%Q.
Proof. reflexivity. Qed.

Lemma Update_steps_witness :
  Z.of_nat (List.length (vecChannel scenario_sequencer)) < 2 ^ 31
  /\ fAccumulate scenario_sequencer = Fin (inject_Z 0)
  /\ fBeatTime scenario_sequencer = Fin (60.0 / 120.0 / inject_Z 4)%Q
  /\ (0 < 60.0 / 120.0 / inject_Z 4)%Q
  /\ on_grid (inject_Z 0) /\ on_grid (60.0 / 120.0 / inject_Z 4)
  /\ on_grid 2.0
  /\ Update 16 scenario_sequencer (Fin 2.0) = Returns (1, scenario_after_bar)
  /\ 0 <= nCurrentBeat scenario_sequencer < nTotalBeats scenario_sequencer
  /\ nTotalBeats scenario_sequencer < 2 ^ 31
  /\ nCurrentBeat scenario_after_bar
     = (nCurrentBeat scenario_sequencer
        + Z.of_nat (Z.to_nat (Qfloor ((inject_Z 0 + 2.0)
                                      / (60.0 / 120.0 / inject_Z 4)))))
       mod nTotalBeats scenario_sequencer.
Proof.
  assert (H1 : Z.of_nat (List.length (vecChannel scenario_sequencer))
               < 2 ^ 31) by reflexivity.
  assert (H2 : fAccumulate scenario_sequencer = Fin (inject_Z 0))
    by reflexivity.
  assert (H4 : (0 < 60.0 / 120.0 / inject_Z 4)%Q) by reflexivity.
  assert (H6 : 0 <= nCurrentBeat scenario_sequencer
               < nTotalBeats scenario_sequencer)
    by (split; [discriminate|reflexivity]).
  assert (H7 : nTotalBeats scenario_sequencer < 2 ^ 31) by reflexivity.
  split; [exact H1|]. split; [exact H2|]. split; [exact scenario_beat_time|].
  split; [exact H4|]. split; [exact on_grid_0|].
  split; [exact on_grid_step|]. split; [exact on_grid_bar|].
  split; [exact scenario_bar|]. split; [exact H6|].
  split; [exact H7|].
  exact (proj2 (proj2 (Update_steps 16 scenario_sequencer _ _ 2.0 1
                         scenario_after_bar H1 H2 scenario_beat_time H4
                         on_grid_0 on_grid_step on_grid_bar
                         scenario_bar)) H6 H7).
Defined.

(** X15. The notes of [Update], exactly.  Under the same conditions
    (positive step duration, all three times on the binary grid) the
    output list is, for each of the floor((a + dt) / b) steps in order,
    one note per channel whose pattern has the trigger marker at that
    step, in channel order, and the returned count is its length. *)
Theorem Update_notes_exact fuel this a b dt n this' :
  Z.of_nat (List.length (vecChannel this)) < 2 ^ 31 ->
  fAccumulate this = Fin a -> fBeatTime this = Fin b -> (0 < b)%Q ->
  on_grid a -> on_grid b -> on_grid dt ->
  Update fuel this (Fin dt) = Returns (n, this') ->
  vecNotes this'
  = run_notes (vecChannel this) (nTotalBeats this) (nCurrentBeat this)
              (Z.to_nat (Qfloor ((a + dt) / b)))
  /\ n = wrap32 (Z.of_nat (List.length (vecNotes this'))).
Proof.
  intros Hlen Ha Hb Hpos _ _ _ H.
  destruct (Update_exact _ _ _ _ _ _ _ Hlen Ha Hb H)
    as (k' & a' & H1 & H2 & H3 & H4 & H5 & H6 & H7 & _).
  assert (Ek : k' = Z.to_nat (Qfloor ((a + dt) / b)))
    by (apply (step_count_floor _ b a'); assumption).
  subst k'. auto.
Qed.

Lemma Update_notes_exact_witness :
  Z.of_nat (List.length (vecChannel scenario_sequencer)) < 2 ^ 31
  /\ fAccumulate scenario_sequencer = Fin (inject_Z 0)
  /\ fBeatTime scenario_sequencer = Fin (60.0 / 120.0 / inject_Z 4)%Q
  /\ (0 < 60.0 / 120.0 / inject_Z 4)%Q
  /\ on_grid (inject_Z 0) /\ on_grid (60.0 / 120.0 / inject_Z 4)
  /\ on_grid 2.0
  /\ Update 16 scenario_sequencer (Fin 2.0) = Returns (1, scenario_after_bar)
  /\ vecNotes scenario_after_bar
     = run_notes (vecChannel scenario_sequencer)
                 (nTotalBeats scenario_sequencer)
                 (nCurrentBeat scenario_sequencer)
                 (Z.to_nat (Qfloor ((inject_Z 0 + 2.0)
                                    / (60.0 / 120.0 / inject_Z 4))))
  /\ 1 = wrap32 (Z.of_nat (List.length (vecNotes scenario_after_bar))).
Proof.
  assert (H1 : Z.of_nat (List.length (vecChannel scenario_sequencer))
               < 2 ^ 31) by reflexivity.
  assert (H2 : fAccumulate scenario_sequencer = Fin (inject_Z 0))
    by reflexivity.
  assert (H4 : (0 < 60.0 / 120.0 / inject_Z 4)%Q) by reflexivity.
  split; [exact H1|]. split; [exact H2|]. split; [exact scenario_beat_time|].
  split; [exact H4|]. split; [exact on_grid_0|].
  split; [exact on_grid_step|]. split; [exact on_grid_bar|].
  split; [exact scenario_bar|].
  exact (Update_notes_exact 16 scenario_sequencer _ _ 2.0 1
           scenario_after_bar H1 H2 scenario_beat_time H4
           on_grid_0 on_grid_step on_grid_bar scenario_bar).
Defined.

(** X16. Calls compose.  For a playable sequencer with a positive step
    duration, when step duration, accumulator and both elapsed times are
    on the binary grid, two successive calls [Update(dt1)], [Update(dt2)]
    with [dt2 >= 0] leave the step counter and the accumulator where the
    single call [Update(dt1 + dt2)] leaves them, and the single call
    reports the notes of the first call followed by the notes of the
    second. *)
Theorem Update_split f1 f2 this a b dt1 dt2 n1 s1 n2 s2 :
  playable this ->
  fAccumulate this = Fin a -> fBeatTime this = Fin b -> (0 < b)%Q ->
  on_grid a -> on_grid b -> on_grid dt1 -> on_grid dt2 ->
  (0 <= dt2)%Q ->
  Update f1 this (Fin dt1) = Returns (n1, s1) ->
  Update f2 s1 (Fin dt2) = Returns (n2, s2) ->
  exists f n s,
    Update f this (Fin (dt1 + dt2)) = Returns (n, s)
    /\ nCurrentBeat s = nCurrentBeat s2
    /\ vecNotes s = vecNotes s1 ++ vecNotes s2
    /\ exists x y, fAccumulate s = Fin x /\ fAccumulate s2 = Fin y
                   /\ (x == y)%Q.
Proof.
  intros Hp Ha Hb Hpos _ _ _ _ Hdt H1 H2.
  assert (Hlen : Z.of_nat (List.length (vecChannel this)) < 2 ^ 31)
    by (destruct Hp as (_ & _ & _ & Hlen & _); exact Hlen).
  destruct (Update_returns this a b (dt1 + dt2)%Q Hp Ha Hb Hpos)
    as (f & n & s & H).
  exists f, n, s. split; [exact H|].
  destruct (Update_exact _ _ _ _ _ _ _ Hlen Ha Hb H1)
    as (k1 & a1 & A1 & B1 & C1 & D1 & E1 & F1 & _ & G1 & T1 & BT1).
  assert (Hlen1 : Z.of_nat (List.length (vecChannel s1)) < 2 ^ 31)
    by (rewrite G1; exact Hlen).
  assert (Hb1 : fBeatTime s1 = Fin b) by (rewrite BT1; exact Hb).
  destruct (Update_exact _ _ _ _ _ _ _ Hlen1 A1 Hb1 H2)
    as (k2 & a2 & A2 & B2 & C2 & D2 & E2 & F2 & _).
  destruct (Update_exact _ _ _ _ _ _ _ Hlen Ha Hb H)
    as (k & a' & A & B & C & D & E & F & _).
  assert (Ek : k = (k1 + k2)%nat).
  { apply (step_count_unique (a + (dt1 + dt2))%Q b a' a2); try assumption.
    - rewrite B2, B1, Nat2Z.inj_add, inject_Z_plus. ring.
    - destruct D2 as [->|D2]; [|right; exact D2].
      destruct D1 as [->|D1]; [left; reflexivity|right].
      change (inject_Z (Z.of_nat 0)) with 0%Q in B2. lra. }
  subst k. rewrite G1, T1, E1 in *.
  split; [|split].
  - rewrite E, E2. apply run_beat_add.
  - rewrite F, F1, F2. apply run_notes_add.
  - exists a', a2. repeat split; try assumption.
    rewrite B, B2, B1, Nat2Z.inj_add, inject_Z_plus. ring.
Qed.

Lemma scenario_second_step :
  Update 1 scenario_after_step (Fin 0.125) = Returns (0, scenario_after_2).
Proof. vm_compute. reflexivity. Qed.

Lemma Update_split_witness :
  playable scenario_sequencer
  /\ fAccumulate scenario_sequencer = Fin (inject_Z 0)
  /\ fBeatTime scenario_sequencer = Fin (60.0 / 120.0 / inject_Z 4)%Q
  /\ (0 < 60.0 / 120.0 / inject_Z 4)%Q
  /\ on_grid (inject_Z 0) /\ on_grid (60.0 / 120.0 / inject_Z 4)
  /\ on_grid 0.125
  /\ (0 <= 0.125)%Q
  /\ Update 1 scenario_sequencer (Fin 0.125)
     = Returns (0, scenario_after_step)
  /\ Update 1 scenario_after_step (Fin 0.125) = Returns (0, scenario_after_2)
  /\ exists f n s,
       Update f scenario_sequencer (Fin (0.125 + 0.125)) = Returns (n, s)
       /\ nCurrentBeat s = nCurrentBeat scenario_after_2
       /\ vecNotes s = vecNotes scenario_after_step
                       ++ vecNotes scenario_after_2
       /\ exists x y, fAccumulate s = Fin x
                      /\ fAccumulate scenario_after_2 = Fin y
                      /\ (x == y)%Q.
Proof.
  assert (H2 : fAccumulate scenario_sequencer = Fin (inject_Z 0))
    by reflexivity.
  assert (H4 : (0 < 60.0 / 120.0 / inject_Z 4)%Q) by reflexivity.
  assert (H5 : (0 <= 0.125)%Q) by discriminate.
  split; [exact scenario_playable|]. split; [exact H2|].
  split; [exact scenario_beat_time|]. split; [exact H4|].
  split; [exact on_grid_0|]. split; [exact on_grid_step|].
  split; [exact on_grid_eighth|].
  split; [exact H5|]. split; [exact scenario_first_step|].
  split; [exact scenario_second_step|].
  exact (Update_split 1 1 scenario_sequencer _ _ 0.125 0.125 0
           scenario_after_step 0 scenario_after_2 scenario_playable H2
           scenario_beat_time H4 on_grid_0 on_grid_step on_grid_eighth
           on_grid_eighth H5 scenario_first_step scenario_second_step).
Defined.

(** A step duration that is not positive: the loop never ends. *)
Lemma Update_loop_never_returns : forall fuel this a b this',
  fAccumulate this = Fin a -> fBeatTime this = Fin b ->
  (b <= 0)%Q -> (b <= a)%Q ->
  Update_loop fuel this <> Returns this'.
Proof.
  induction fuel as [|fuel IH]; intros this a b this' Ha Hb Hneg Hge;
    cbn [Update_loop]; rewrite Ha, Hb, geb_Fin;
    (assert (E : Qle_bool b a = true) by (apply Qle_bool_iff; exact Hge));
    rewrite E; [discriminate|].
  destruct (Update_channels _ _ _ _ _) as [notes| |]; try discriminate.
  cbn [F.sub]. apply (IH _ (a - b)%Q b); try reflexivity; try assumption.
  lra.
Qed.

(** X17. A step duration that is zero or negative (a negative tempo, or
    an infinite one) hangs the sequencer: once the accumulator has reached
    it, [Update] does not return, whatever the number of loop iterations
    allowed. *)
Theorem nonpositive_step_never_returns fuel this a b dt r :
  fAccumulate this = Fin a -> fBeatTime this = Fin b ->
  (b <= 0)%Q -> (b <= a + dt)%Q ->
  Update fuel this (Fin dt) <> Returns r.
Proof.
  intros Ha Hb Hneg Hge. unfold Update. rewrite Ha. cbn [F.add].
  destruct (Update_loop fuel _) as [s| |] eqn:E; try discriminate.
  exfalso. revert E.
  apply (Update_loop_never_returns _ _ (a + dt)%Q b); auto.
Qed.

Lemma nonpositive_step_never_returns_witness :
  fAccumulate (sequencer_new (Fin (-120)) 4 4) = Fin (inject_Z 0)
  /\ fBeatTime (sequencer_new (Fin (-120)) 4 4)
     = Fin (60.0 / (-120) / inject_Z 4)%Q
  /\ (60.0 / (-120) / inject_Z 4 <= 0)%Q
  /\ (60.0 / (-120) / inject_Z 4 <= inject_Z 0 + 1)%Q
  /\ Update 1000 (sequencer_new (Fin (-120)) 4 4) (Fin 1)
     <> Returns (0, sequencer_new (Fin (-120)) 4 4).
Proof.
  assert (H1 : fAccumulate (sequencer_new (Fin (-120)) 4 4)
               = Fin (inject_Z 0)) by reflexivity.
  assert (H2 : fBeatTime (sequencer_new (Fin (-120)) 4 4)
               = Fin (60.0 / (-120) / inject_Z 4)%Q) by reflexivity.
  assert (H3 : (60.0 / (-120) / inject_Z 4 <= 0)%Q) by discriminate.
  assert (H4 : (60.0 / (-120) / inject_Z 4 <= inject_Z 0 + 1)%Q)
    by discriminate.
  split; [exact H1|]. split; [exact H2|]. split; [exact H3|].
  split; [exact H4|].
  exact (nonpositive_step_never_returns 1000 _ _ _ 1 _ H1 H2 H3 H4).
Defined.

(** X18. A sub-beat count of 0 with a positive tempo makes the
    constructed step duration +infinity; a sequencer with an infinite step
    duration never advances: every [Update] returns 0 notes and leaves the
    step counter where it was, only adding to the accumulator (for an
    accumulator and an elapsed time on the binary grid, whose sum is
    finite and exact). *)
Theorem infinite_step_never_advances :
  (forall t0 beats,
      (0 < t0)%Q -> fBeatTime (sequencer_new (Fin t0) beats 0) = PInf)
  /\ (forall fuel this a dt,
        fBeatTime this = PInf -> fAccumulate this = Fin a ->
        on_grid a -> on_grid dt ->
        exists this',
          Update fuel this (Fin dt) = Returns (0, this')
          /\ nCurrentBeat this' = nCurrentBeat this
          /\ vecNotes this' = []
          /\ fAccumulate this' = Fin (a + dt)).
Proof.
  split.
  - intros t0 beats Ht. cbn [sequencer_new fBeatTime]. unfold F.of_int.
    rewrite div_Fin by lra.
    unfold F.div. change (Qeq_bool (inject_Z 0) 0) with true. cbv iota.
    assert (E2 : (60.0 / t0 ?= 0)%Q = Gt).
    { apply (proj1 (Qgt_alt _ _)). apply Qlt_shift_div_l; [exact Ht|].
      assert (X : (0 * t0 == 0)%Q) by ring. rewrite X. reflexivity. }
    rewrite E2. reflexivity.
  - intros fuel this a dt Hb Ha _ _. unfold Update. rewrite Ha. cbn [F.add].
    assert (E : Update_loop fuel
                  (set_step this (Fin (a + dt)) (nCurrentBeat this) [])
                = Returns (set_step this (Fin (a + dt))
                                   (nCurrentBeat this) [])).
    { destruct fuel; cbn [Update_loop set_step fAccumulate fBeatTime];
        rewrite Hb; reflexivity. }
    rewrite E. eexists. split; [reflexivity|]. repeat split.
Qed.

Lemma infinite_step_never_advances_witness :
  (0 < 120)%Q
  /\ fBeatTime (sequencer_new (Fin 120) 4 0) = PInf
  /\ on_grid (inject_Z 0) /\ on_grid 2.0
  /\ exists this',
       Update 1 (sequencer_new (Fin 120) 4 0) (Fin 2.0) = Returns (0, this')
       /\ nCurrentBeat this' = nCurrentBeat (sequencer_new (Fin 120) 4 0)
       /\ vecNotes this' = []
       /\ fAccumulate this' = Fin (inject_Z 0 + 2.0).
Proof.
  assert (H1 : (0 < 120)%Q) by reflexivity.
  split; [exact H1|].
  split; [exact (proj1 infinite_step_never_advances 120%Q 4 H1)|].
  split; [exact on_grid_0|]. split; [exact on_grid_bar|].
  exact (proj2 infinite_step_never_advances 1%nat
           (sequencer_new (Fin 120) 4 0) (inject_Z 0) 2.0%Q
           (proj1 infinite_step_never_advances 120%Q 4 H1) eq_refl
           on_grid_0 on_grid_bar).
Defined.

Lemma Update_channels_bad_last all cur bad : forall rest c notes,
  Forall (fun v => 0 <= cur <= Z.of_nat (String.length (sBeat v))) rest ->
  wstring_at (sBeat bad) cur = None ->
  Update_channels all cur (rest ++ [bad]) c notes = OutOfBounds.
Proof.
  induction rest as [|v rest IH]; intros c notes Hb Hbad;
    cbn [app Update_channels].
  - rewrite Hbad. reflexivity.
  - apply Forall_cons_iff in Hb as [Hbv Hrest].
    destruct (wstring_at_in_bounds (sBeat v) cur Hbv) as [ch ->].
    destruct (Ascii.eqb ch "X"); [|apply IH; assumption].
    destruct (vector_at all c); [apply IH; assumption|reflexivity].
Qed.

(** X19. A channel is unusable until its pattern is assigned: on a
    playable sequencer whose next step is inside the grid, the first step
    [Update] takes after [AddInstrument] reads the new channel's empty
    pattern out of bounds, whatever the other channels are. *)
Theorem fresh_channel_out_of_bounds fuel this inst dt :
  playable this ->
  nCurrentBeat this + 1 < nTotalBeats this ->
  (fAccumulate this + dt >=? fBeatTime this)%F = true ->
  Update (S fuel) (AddInstrument this inst) dt = OutOfBounds.
Proof.
  intros (Ht & Hc0 & Hc1 & Hlen & Hpat) Hnext Hge.
  unfold Update.
  cbn [AddInstrument set_step Update_loop fAccumulate fBeatTime nCurrentBeat
       nTotalBeats vecChannel vecNotes].
  rewrite Hge.
  rewrite wrap32_small by (unfold int_range in *; lia).
  destruct (Z.geb_spec (nCurrentBeat this + 1) (nTotalBeats this)); [lia|].
  rewrite Update_channels_bad_last; [reflexivity| |].
  - eapply Forall_impl; [|exact Hpat]. cbn. intros v Hv. lia.
  - apply wstring_at_out_of_bounds. right. cbn. lia.
Qed.

Lemma default_playable : playable sequencer_default.
Proof.
  unfold playable. cbn.
  split; [unfold int_range; cbn; lia|].
  split; [lia|]. split; [left; reflexivity|]. split; [reflexivity|].
  constructor.
Qed.

Lemma fresh_channel_out_of_bounds_witness :
  playable sequencer_default
  /\ nCurrentBeat sequencer_default + 1 < nTotalBeats sequencer_default
  /\ (fAccumulate sequencer_default + Fin 0.125
      >=? fBeatTime sequencer_default)%F = true
  /\ Update 1 (AddInstrument sequencer_default (Some instrument_bell))
            (Fin 0.125)
     = OutOfBounds.
Proof.
  assert (H2 : nCurrentBeat sequencer_default + 1
               < nTotalBeats sequencer_default) by reflexivity.
  assert (H3 : (fAccumulate sequencer_default + Fin 0.125
                >=? fBeatTime sequencer_default)%F = true) by reflexivity.
  split; [exact default_playable|]. split; [exact H2|]. split; [exact H3|].
  exact (fresh_channel_out_of_bounds 0 sequencer_default
           (Some instrument_bell) (Fin 0.125) default_playable H2 H3).
Defined.

Lemma Update_loop_starved : forall fuel this a b,
  playable this ->
  fAccumulate this = Fin a -> fBeatTime this = Fin b ->
  (0 < b)%Q -> (b <= a - inject_Z (Z.of_nat fuel) * b)%Q ->
  Update_loop fuel this = OutOfFuel.
Proof.
  induction fuel as [|fuel IH]; intros this a b Hp Ha Hb Hpos Hfuel;
    cbn [Update_loop]; rewrite Ha, Hb, geb_Fin.
  - change (inject_Z (Z.of_nat 0)) with 0%Q in Hfuel.
    assert (E : Qle_bool b a = true) by (apply Qle_bool_iff; lra).
    rewrite E. reflexivity.
  - rewrite Nat2Z.inj_succ in Hfuel. unfold Z.succ in Hfuel.
    rewrite inject_Z_plus in Hfuel. change (inject_Z 1) with 1%Q in Hfuel.
    assert (Hn : (0 <= inject_Z (Z.of_nat fuel))%Q).
    { change 0%Q with (inject_Z 0). rewrite <- Zle_Qle. lia. }
    assert (E : Qle_bool b a = true).
    { apply Qle_bool_iff. set (x := inject_Z (Z.of_nat fuel)) in *. nra. }
    rewrite E.
    destruct Hp as (Ht & Hc0 & Hc1 & Hlen & Hpat).
    assert (Hw : wrap32 (nCurrentBeat this + 1) = nCurrentBeat this + 1).
    { apply wrap32_small. unfold int_range in *. lia. }
    rewrite Hw.
    set (cur := if nCurrentBeat this + 1 >=? nTotalBeats this
                then 0 else nCurrentBeat this + 1).
    assert (Hcur : 0 <= cur /\ (cur < nTotalBeats this \/ cur = 0)).
    { subst cur.
      destruct (Z.geb_spec (nCurrentBeat this + 1) (nTotalBeats this)); lia. }
    destruct (Update_channels_in_bounds (vecChannel this) cur
                (vecChannel this) [] 0 (vecNotes this)) as [notes ->];
      [reflexivity|reflexivity|assumption| |].
    + eapply Forall_impl; [|exact Hpat]. cbn. intros v Hv. lia.
    + cbn [F.sub].
      apply (IH _ (a - b)%Q b); try reflexivity; try assumption.
      * unfold playable.
        cbn [set_step nTotalBeats nCurrentBeat vecChannel]. tauto.
      * lra.
Qed.

(** X20. [Update] terminates, and in a known number of iterations: for a
    playable sequencer with a positive step duration b, an accumulator a
    and an elapsed time dt, all on the binary grid, the loop of
    [Update(dt)] runs exactly k = floor((a + dt) / b) times (0 if
    negative): with k iterations or more the call returns one and the same
    result, with fewer it has not returned yet. *)
Theorem Update_iterations this a b dt :
  playable this ->
  fAccumulate this = Fin a -> fBeatTime this = Fin b -> (0 < b)%Q ->
  on_grid a -> on_grid b -> on_grid dt ->
  let k := Z.to_nat (Qfloor ((a + dt) / b)) in
  exists n this',
    (forall fuel, (k <= fuel)%nat ->
       Update fuel this (Fin dt) = Returns (n, this'))
    /\ (forall fuel, (fuel < k)%nat ->
          Update fuel this (Fin dt) = OutOfFuel).
Proof.
  intros Hp Ha Hb Hpos _ _ _ k.
  set (x := ((a + dt) / b)%Q) in *.
  assert (Hx : (x * b == a + dt)%Q) by (subst x; field; lra).
  pose proof (Qfloor_le x) as F1. pose proof (Qlt_floor x) as F2.
  rewrite inject_Z_plus in F2. change (inject_Z 1) with 1%Q in F2.
  set (s0 := set_step this (Fin (a + dt)) (nCurrentBeat this) []).
  assert (Hs0 : playable s0) by exact Hp.
  destruct (Update_loop_returns k s0 (a + dt)%Q b) as [this' E];
    try assumption; try reflexivity.
  { assert (Hz : (Qfloor x <= Z.of_nat k)%Z) by (subst k; lia).
    rewrite Zle_Qle in Hz. set (n := inject_Z (Z.of_nat k)) in *. nra. }
  exists (wrap32 (Z.of_nat (List.length (vecNotes this')))), this'.
  split.
  - intros fuel Hf. unfold Update. rewrite Ha. cbn [F.add]. fold s0.
    replace fuel with (k + (fuel - k))%nat by lia.
    rewrite (Update_loop_more_fuel _ _ _ _ E). reflexivity.
  - intros fuel Hf. unfold Update. rewrite Ha. cbn [F.add]. fold s0.
    rewrite (Update_loop_starved fuel s0 (a + dt)%Q b);
      try assumption; try reflexivity.
    assert (Hk : (Z.of_nat fuel + 1 <= Qfloor x)%Z) by (subst k; lia).
    rewrite Zle_Qle, inject_Z_plus in Hk.
    change (inject_Z 1) with 1%Q in Hk.
    set (n := inject_Z (Z.of_nat fuel)) in *. nra.
Qed.

Lemma Update_iterations_witness :
  playable scenario_sequencer
  /\ fAccumulate scenario_sequencer = Fin (inject_Z 0)
  /\ fBeatTime scenario_sequencer = Fin (60.0 / 120.0 / inject_Z 4)%Q
  /\ (0 < 60.0 / 120.0 / inject_Z 4)%Q
  /\ on_grid (inject_Z 0) /\ on_grid (60.0 / 120.0 / inject_Z 4)
  /\ on_grid 2.0
  /\ exists n this',
       (forall fuel,
           (Z.to_nat (Qfloor ((inject_Z 0 + 2.0)
                              / (60.0 / 120.0 / inject_Z 4))) <= fuel)%nat ->
           Update fuel scenario_sequencer (Fin 2.0) = Returns (n, this'))
       /\ (forall fuel,
             (fuel < Z.to_nat (Qfloor ((inject_Z 0 + 2.0)
                                       / (60.0 / 120.0 / inject_Z 4))))%nat ->
             Update fuel scenario_sequencer (Fin 2.0) = OutOfFuel).
Proof.
  assert (H2 : fAccumulate scenario_sequencer = Fin (inject_Z 0))
    by reflexivity.
  assert (H4 : (0 < 60.0 / 120.0 / inject_Z 4)%Q) by reflexivity.
  split; [exact scenario_playable|]. split; [exact H2|].
  split; [exact scenario_beat_time|]. split; [exact H4|].
  split; [exact on_grid_0|]. split; [exact on_grid_step|].
  split; [exact on_grid_bar|].
  exact (Update_iterations scenario_sequencer _ _ 2.0 scenario_playable H2
           scenario_beat_time H4 on_grid_0 on_grid_step on_grid_bar).
Defined.

(* ================================================================== *)
(** * Properties over binary64 *)

Import SpecFloat PrimFloat FloatOps FloatAxioms.
#[local] Set Warnings "-inexact-float".

Local Open Scope Q_scope.

(* ------------------------------------------------------------------ *)
(** ** Comparisons of binary64 numbers *)

Lemma SFcompare_Gt_swap x y :
  SFcompare x y = Some Gt -> SFcompare y x = Some Lt.
Proof.
  destruct x as [sx|sx| |sx mx ex], y as [sy|sy| |sy my ey]; cbn;
    try discriminate;
    try (destruct sx; try destruct sy; intros H; try discriminate H;
         reflexivity).
  destruct sx, sy; try discriminate; try reflexivity.
  - rewrite (Z.compare_antisym ex ey).
    destruct (ex ?= ey)%Z; cbn; try discriminate; try reflexivity.
    pose proof (Pos.compare_cont_antisym mx my Eq) as A. cbn in A.
    rewrite <- A.
    destruct (Pos.compare_cont Eq mx my); cbn; congruence.
  - rewrite (Z.compare_antisym ex ey).
    destruct (ex ?= ey)%Z; cbn; try discriminate; try reflexivity.
    pose proof (Pos.compare_cont_antisym mx my Eq) as A. cbn in A.
    rewrite <- A.
    destruct (Pos.compare_cont Eq mx my); cbn; congruence.
Qed.

Lemma SFcompare_None x y :
  SFcompare x y = None -> x = S754_nan \/ y = S754_nan.
Proof.
  destruct x as [sx|sx| |sx mx ex], y as [sy|sy| |sy my ey]; cbn; auto;
    try (destruct sx; try destruct sy; discriminate).
Qed.

Lemma is_nan_spec v : Prim2SF v = S754_nan -> PrimFloat.is_nan v = true.
Proof.
  intros H. unfold PrimFloat.is_nan. rewrite eqb_spec, H. reflexivity.
Qed.

(** A value that is not at or below a number is above it, or is a NaN. *)
Lemma leb_false_cases v c :
  Prim2SF c <> S754_nan ->
  PrimFloat.leb v c = false ->
  PrimFloat.ltb c v = true \/ PrimFloat.is_nan v = true.
Proof.
  intros Hc. rewrite leb_spec, ltb_spec. unfold SFleb, SFltb.
  destruct (SFcompare (Prim2SF v) (Prim2SF c)) as [[ | | ]|] eqn:E;
    try discriminate; intros _.
  - left. rewrite (SFcompare_Gt_swap _ _ E). reflexivity.
  - right. apply is_nan_spec.
    destruct (SFcompare_None _ _ E); [assumption | contradiction].
Qed.

(* ------------------------------------------------------------------ *)
(** ** The guard of the envelope *)

Lemma leb_guard_false_cases v :
  F.leb v (Fin 0.01) = false -> F.ltb (Fin 0.01) v = true \/ v = NaN.
Proof.
  destruct v as [q| | |]; try discriminate; auto.
  rewrite leb_Fin, ltb_Fin. intros H. left.
  destruct (Qle_bool q 0.01); [discriminate|reflexivity].
Qed.

Lemma IEEE_amplitude_guard (this : IEEE.envelope_adsr) t on off :
  exists v, IEEE.amplitude this t on off
            = if (v <=? 0.01)%float then 0.0%float else v.
Proof. unfold IEEE.amplitude. eexists. reflexivity. Qed.

(** C9, as it holds of the code.  Whatever the envelope and the arguments,
    the value [amplitude] returns is exactly 0, or strictly greater than
    0.01, or a NaN, and never lies in the half-open interval (0, 0.01]:
    the guard snaps every computed amplitude at or below 0.01 to 0 and
    lets a NaN through.  This holds of the exact embedding and of the
    binary64 one. *)
Theorem amplitude_zero_or_above_guard :
  (forall (this : envelope_adsr) t on off,
      let v := amplitude this t on off in
      (v = Fin 0.0 \/ F.ltb (Fin 0.01) v = true \/ v = NaN)
      /\ ~ (F.ltb (Fin 0) v = true /\ F.leb v (Fin 0.01) = true))
  /\ (forall (this : IEEE.envelope_adsr) t on off,
        let v := IEEE.amplitude this t on off in
        (v = 0.0 \/ (0.01 <? v) = true \/ is_nan v = true)
        /\ ~ ((0 <? v) = true /\ (v <=? 0.01) = true))%float.
Proof.
  split.
  - intros this t on off.
    destruct (amplitude_guard this t on off) as [x Hx].
    cbn [amplitude envelope_adsr_is_envelope]. cbv zeta. rewrite Hx.
    destruct (F.leb x (Fin 0.01)) eqn:E.
    + split; [left; reflexivity|]. intros [C _]. discriminate C.
    + split; [right; apply leb_guard_false_cases; exact E|].
      intros [_ C]. congruence.
  - intros this t on off.
    destruct (IEEE_amplitude_guard this t on off) as [raw Hx].
    cbv zeta. rewrite Hx.
    destruct (PrimFloat.leb raw 0.01) eqn:E.
    + split; [left; reflexivity|]. intros [C _].
      vm_compute in C. discriminate C.
    + split; [right; apply leb_false_cases; [|exact E]|].
      * vm_compute. discriminate.
      * intros [_ C]. congruence.
Qed.

(** C9, as stated, fails: positive attack, decay and release times do not
    keep the result a number.  With a release time of 1e-300 the quotient
    [(time - offTime) / releaseTime] overflows to infinity and is
    multiplied by the zero release amplitude; the NaN passes the guard and
    is returned, a value neither 0 nor greater than 0.01.  So is the NaN
    the default envelope computes from a time that is a NaN. *)
Lemma amplitude_nan_passes_guard :
  ((0 <? IEEE.dAttackTime IEEE.abrupt_release) = true
   /\ (0 <? IEEE.dDecayTime IEEE.abrupt_release) = true
   /\ (0 <? IEEE.dReleaseTime IEEE.abrupt_release) = true
   /\ let v := IEEE.amplitude IEEE.abrupt_release 1e10 0 0 in
      is_nan v = true /\ (v =? 0) = false /\ (0.01 <? v) = false)%float
  /\ amplitude envelope_adsr_new NaN (Fin 0) (Fin 0) = NaN.
Proof. split; [vm_compute; repeat split | reflexivity]. Qed.

(** The bounds of the range property are needed.  A decay time below the
    rounding granularity of the attack time: the sum [attack + decay]
    rounds up past the true end of the decay, and the decay ramp of a
    sounding note is extrapolated to 1.85. *)
Lemma decay_below_granularity :
  (let this := {| IEEE.dAttackTime := 1.0; IEEE.dDecayTime := 1.2e-16;
                  IEEE.dSustainAmplitude := 1.0; IEEE.dReleaseTime := 1.0;
                  IEEE.dStartAmplitude := 0.0 |} in
   (1.0 <? IEEE.amplitude this 1.0000000000000002 0 (-1)) = true)%float.
Proof. vm_compute. reflexivity. Qed.

(** The default envelope, released at time 1 and asked at time 0, returns
    6 in binary64 as it does in exact arithmetic. *)
Lemma release_extrapolated_binary64 :
  (IEEE.amplitude IEEE.envelope_adsr_new 0 0 1 = 6)%float.
Proof. vm_compute. reflexivity. Qed.

(* ------------------------------------------------------------------ *)
(** ** The digital saw *)

Section SawDig.
Context `{L : IEEE.Libm}.

(** C8. For every time, frequency and shape parameter the digital saw is
    the closed-form ramp (2/PI) * (f * PI * fmod(t, 1/f) - PI/2), each
    operation being the binary64 one of the code; it returns whatever the
    number of loop iterations allowed, leaves the random generator
    untouched, and value and generator state are identical for any two
    settings of the vibrato parameters and of the shape parameter. *)
Theorem saw_dig_closed_form (fuel fuel' : nat)
        (t f dLFOHertz dLFOAmplitude dCustom
           dLFOHertz' dLFOAmplitude' dCustom' : float) (g : IEEE.rng) :
  (IEEE.osc fuel t f OSC_SAW_DIG dLFOHertz dLFOAmplitude dCustom g
   = Some ((2.0 / IEEE.PI)
           * (f * IEEE.PI * IEEE.fmod t (1.0 / f) - IEEE.PI / 2.0), g)
   /\ IEEE.osc fuel t f OSC_SAW_DIG dLFOHertz dLFOAmplitude dCustom g
      = IEEE.osc fuel' t f OSC_SAW_DIG dLFOHertz' dLFOAmplitude' dCustom' g
  )%float.
Proof. split; reflexivity. Qed.

End SawDig.

(** The period of the ramp is the rounded quotient [1.0 / dHertz]: at
    10 Hz and time 1 s, a whole number of true periods, the code returns
    the top of the ramp, not its bottom. *)
Lemma saw_dig_rounded_period :
  (IEEE.osc (L:=IEEE.test_libm) 0 1.0 10.0 OSC_SAW_DIG 0.0 0.0 50.0 1%Z
   = Some (0.99999999999999889, 1%Z))%float.
Proof. vm_compute. reflexivity. Qed.

(** The sine oscillator, for contrast, does respond to the vibrato. *)
Lemma sine_responds_to_vibrato :
  (IEEE.osc (L:=IEEE.test_libm) 0 0.1 1.0 OSC_SINE 5.0 0.001 50.0 1%Z
   <> IEEE.osc (L:=IEEE.test_libm) 0 0.1 1.0 OSC_SINE 0.0 0.0 50.0 1%Z
  )%float.
Proof.
  intros H.
  assert (E : option_map (fun r => fst r =? 0.58821680525323894)%float
                (IEEE.osc (L:=IEEE.test_libm) 0 0.1 1.0 OSC_SINE
                          5.0 0.001 50.0 1%Z) = Some true)
    by (vm_compute; reflexivity).
  rewrite H in E. vm_compute in E. discriminate E.
Qed.
